(** * Scheduling policies of pa2.c: a shallow embedding

    The policies of [pa2.c] (FCFS, SJF, STCF, Round-Robin, Priority,
    Priority + aging, Priority + PCP, Priority + PIP) are embedded as
    programs of a small state-and-error monad over an explicit simulation
    state.  Process pointers become handles into a process table, so that
    the records stay shared between the queues, the resources and
    [current], as they are in the C program. *)

From Stdlib Require Import ZArith Lia.
From stdpp Require Import base decidable option list gmap.

Local Open Scope Z_scope.

(** ** Data model *)

(** Modelled from the spec: [process.h] is not among the sources.  The
    status of a process is one of READY, RUNNING and BLOCKED. *)
Inductive process_status : Type :=
  | PROCESS_READY
  | PROCESS_RUNNING
  | PROCESS_BLOCKED.

#[global] Instance process_status_eq_dec : EqDecision process_status.
Proof. solve_decision. Defined.

(** A process handle stands for a [struct process *] that is not NULL. *)
Abbreviation pid := nat (only parsing).

(** A [struct process *]: [None] is NULL. *)
Abbreviation ptr := (option nat) (only parsing).

(** Modelled from the spec: [struct process] is declared in [process.h],
    which is not among the sources.  The counters are C [unsigned int]s,
    kept here as integers with the 32-bit wrap-around written out where
    the code computes with them. *)
Record process : Type := mk_process {
  status : process_status;
  age : Z;
  lifespan : Z;
  prio : Z;
  prio_orig : Z
}.

#[global] Instance process_eq_dec : EqDecision process.
Proof. solve_decision. Defined.

Definition set_status (v : process_status) (p : process) : process :=
  mk_process v (age p) (lifespan p) (prio p) (prio_orig p).

Definition set_prio (v : Z) (p : process) : process :=
  mk_process (status p) (age p) (lifespan p) v (prio_orig p).

Definition set_age (v : Z) (p : process) : process :=
  mk_process (status p) v (lifespan p) (prio p) (prio_orig p).

(** Modelled from the spec: [struct resource] is declared in [resource.h],
    which is not among the sources: an owner, absent or one process, and
    the ordered collection of the processes waiting for the resource. *)
Record resource : Type := mk_resource {
  owner : ptr;
  waitqueue : list pid
}.

(** The globals of [pa2.c]: the process records (shared by reference),
    [current], [readyqueue] and the table [resources]. *)
Record state : Type := mk_state {
  procs : gmap pid process;
  current : ptr;
  readyqueue : list pid;
  resources : list resource
}.

Definition with_procs (m : gmap pid process) (s : state) : state :=
  mk_state m (current s) (readyqueue s) (resources s).

Definition with_current (c : ptr) (s : state) : state :=
  mk_state (procs s) c (readyqueue s) (resources s).

Definition with_readyqueue (q : list pid) (s : state) : state :=
  mk_state (procs s) (current s) q (resources s).

Definition with_resources (rs : list resource) (s : state) : state :=
  mk_state (procs s) (current s) (readyqueue s) rs.

(** Unsigned 32-bit arithmetic of C. *)
Definition u32 (z : Z) : Z := z mod 2 ^ 32.

(** [p->lifespan - p->age], computed on [unsigned int]. *)
Definition remaining (p : process) : Z := u32 (lifespan p - age p).

(** ** The monad: state, assertion failure, undefined behaviour *)

(** What a call does: it returns a value in a new state, it stops in a
    failed [assert] (the state is the one the assertion was evaluated in),
    or it dereferences a pointer that is NULL or dangling. *)
Inductive outcome (A : Type) : Type :=
  | Done (a : A) (s : state)
  | Abort (s : state)
  | Fault.

Arguments Done {A} a s.
Arguments Abort {A} s.
Arguments Fault {A}.

Definition M (A : Type) : Type := state -> outcome A.

Definition ret {A : Type} (a : A) : M A := fun s => Done a s.

Definition bind {A B : Type} (m : M A) (k : A -> M B) : M B :=
  fun s =>
    match m s with
    | Done a s' => k a s'
    | Abort s' => Abort s'
    | Fault => Fault
    end.

Declare Scope sched_scope.
Delimit Scope sched_scope with sched.
Notation "'do' x <- m ; k" := (bind m (fun x => k))
  (at level 10, x name, m at level 100, k at level 200) : sched_scope.
Notation "m ;; k" := (bind m (fun _ => k))
  (at level 100, k at level 200, right associativity) : sched_scope.
Local Open Scope sched_scope.

(** [assert(b)] *)
Definition assert (b : bool) : M unit :=
  fun s => if b then Done tt s else Abort s.

Definition get_current : M ptr := fun s => Done (current s) s.

Definition get_readyqueue : M (list pid) := fun s => Done (readyqueue s) s.

(** [resources + resource_id], read. *)
Definition get_resource (resource_id : nat) : M resource :=
  fun s =>
    match resources s !! resource_id with
    | Some r => Done r s
    | None => Fault
    end.

Definition put_resource (resource_id : nat) (r : resource) : M unit :=
  fun s => Done tt (with_resources (<[resource_id := r]> (resources s)) s).

(** [r->owner = o] *)
Definition set_owner (resource_id : nat) (o : ptr) : M unit :=
  do r <- get_resource resource_id;
  put_resource resource_id (mk_resource o (waitqueue r)).

(** Reading the fields of [*p]. *)
Definition load (p : ptr) : M process :=
  fun s =>
    match p with
    | None => Fault
    | Some i =>
        match procs s !! i with
        | Some x => Done x s
        | None => Fault
        end
    end.

(** Writing a field of [*p]. *)
Definition store (p : ptr) (f : process -> process) : M unit :=
  fun s =>
    match p with
    | None => Fault
    | Some i =>
        match procs s !! i with
        | Some x => Done tt (with_procs (<[i := f x]> (procs s)) s)
        | None => Fault
        end
    end.

Definition is_null (p : ptr) : bool :=
  match p with
  | None => true
  | Some _ => false
  end.

(** Pointer comparison [p == q]. *)
Definition ptr_eqb (p q : ptr) : bool := bool_decide (p = q).

(** ** The ordered collections *)

(** Modelled from the spec: [list_head.h] is not among the sources.  The
    spec describes the container as an ordered collection with
    append-to-tail, remove-by-identity, peek-first, empty-check and
    forward iteration, and asks to keep each queue as an explicit ordered
    sequence of handles.  A queue is a [list pid], head first.

    [list_del_init] takes the node only, not the queue: it removes the
    process from the collection that holds it, and does nothing to a
    process that is in none.  [list_add_tail] appends.

    The lists stand for the rings of [list_head.h] as long as every
    process is linked at most once, which is [membership_ok] below.  A
    [list_add_tail] on a process that is linked already leaves it in both
    lists here; that state records that the membership invariant is
    broken, and nothing more: the ring the process was in is cut at that
    node, so what the code does next with that ring is not what these
    lists do.  What is said below about the queues after an operation is
    to be read for a state in which every process is linked at most once
    and the process that is appended is linked nowhere. *)
Definition list_empty (q : list pid) : bool :=
  match q with
  | [] => true
  | _ :: _ => false
  end.

Definition list_first_entry (q : list pid) : ptr := head q.

Definition unlink (i : pid) (q : list pid) : list pid :=
  filter (fun j => j <> i) q.

Arguments unlink : simpl never.

Definition unlink_resource (i : pid) (r : resource) : resource :=
  mk_resource (owner r) (unlink i (waitqueue r)).

(** [list_del_init(&p->list)] *)
Definition list_del_init (p : ptr) : M unit :=
  fun s =>
    match p with
    | None => Fault
    | Some i =>
        match procs s !! i with
        | Some _ =>
            Done tt (mk_state (procs s) (current s)
                       (unlink i (readyqueue s))
                       (unlink_resource i <$> resources s))
        | None => Fault
        end
    end.

(** [list_add_tail(&p->list, &readyqueue)] *)
Definition readyqueue_add_tail (p : ptr) : M unit :=
  fun s =>
    match p with
    | None => Fault
    | Some i =>
        match procs s !! i with
        | Some _ => Done tt (with_readyqueue (readyqueue s ++ [i]) s)
        | None => Fault
        end
    end.

(** [list_add_tail(&p->list, &r->waitqueue)] *)
Definition waitqueue_add_tail (p : ptr) (resource_id : nat) : M unit :=
  fun s =>
    match p with
    | None => Fault
    | Some i =>
        match procs s !! i, resources s !! resource_id with
        | Some _, Some r =>
            Done tt (with_resources
                       (<[resource_id := mk_resource (owner r) (waitqueue r ++ [i])]>
                          (resources s)) s)
        | _, _ => Fault
        end
    end.

(** The selection loops
    [list_for_each_entry(p, q, list) { if (!next) next = p; else if (better p next) next = p; }]
    over a queue [q], started with [next]. *)
Fixpoint scan (better : process -> process -> bool) (q : list pid) (next : ptr)
  : M ptr :=
  match q with
  | [] => ret next
  | p :: q' =>
      match next with
      | None => scan better q' (Some p)
      | Some _ =>
          do pp <- load (Some p);
          do pn <- load next;
          scan better q' (if better pp pn then Some p else next)
      end
  end.

Arguments scan : simpl never.

(** ** FCFS *)

Definition fcfs_acquire (resource_id : nat) : M bool :=
  do r <- get_resource resource_id;
  do cur <- get_current;
  if is_null (owner r) then
    set_owner resource_id cur;;
    ret true
  else
    store cur (set_status PROCESS_BLOCKED);;
    waitqueue_add_tail cur resource_id;;
    ret false.

Definition fcfs_release (resource_id : nat) : M unit :=
  do r <- get_resource resource_id;
  do cur <- get_current;
  assert (ptr_eqb (owner r) cur);;
  set_owner resource_id None;;
  if negb (list_empty (waitqueue r)) then
    let waiter := list_first_entry (waitqueue r) in
    do w <- load waiter;
    assert (bool_decide (status w = PROCESS_BLOCKED));;
    list_del_init waiter;;
    store waiter (set_status PROCESS_READY);;
    readyqueue_add_tail waiter
  else ret tt.

(** The [pick_next:] part of [fcfs_schedule]. *)
Definition fcfs_pick_next : M ptr :=
  do rq <- get_readyqueue;
  if negb (list_empty rq) then
    let next := list_first_entry rq in
    list_del_init next;;
    ret next
  else ret None.

(** [!current || current->status == PROCESS_BLOCKED] *)
Definition absent_or_blocked (cur : ptr) : M bool :=
  if is_null cur then ret true
  else
    do c <- load cur;
    ret (bool_decide (status c = PROCESS_BLOCKED)).

Definition fcfs_schedule : M ptr :=
  do cur <- get_current;
  do skip <- absent_or_blocked cur;
  if skip then fcfs_pick_next
  else
    do c <- load cur;
    if age c <? lifespan c then ret cur
    else fcfs_pick_next.

(** ** SJF *)

Definition sjf_pick_next : M ptr :=
  do rq <- get_readyqueue;
  if negb (list_empty rq) then
    do next <- scan (fun p n => lifespan p <? lifespan n) rq None;
    list_del_init next;;
    ret next
  else ret None.

Definition sjf_schedule : M ptr :=
  do cur <- get_current;
  do skip <- absent_or_blocked cur;
  if skip then sjf_pick_next
  else
    do c <- load cur;
    if age c <? lifespan c then ret cur
    else sjf_pick_next.

(** ** STCF *)

Definition stcf_schedule : M ptr :=
  do rq <- get_readyqueue;
  do cur <- get_current;
  if negb (list_empty rq) then
    do next <- scan (fun p n => remaining p <? remaining n) rq None;
    if is_null cur then
      list_del_init next;;
      ret next
    else
      do c <- load cur;
      if negb (lifespan c =? age c) then
        do n <- load next;
        if remaining c <? remaining n then
          list_del_init cur;;
          ret cur
        else
          readyqueue_add_tail cur;;
          list_del_init next;;
          ret next
      else
        list_del_init next;;
        ret next
  else
    do c <- load cur;
    if age c <? lifespan c then ret cur
    else ret None.

(** ** Round-robin *)

Definition rr_schedule : M ptr :=
  do rq <- get_readyqueue;
  do cur <- get_current;
  if negb (list_empty rq) then
    let next := list_first_entry rq in
    list_del_init next;;
    (if is_null cur then ret tt
     else
       do c <- load cur;
       if negb (lifespan c =? age c) then readyqueue_add_tail cur
       else ret tt);;
    ret next
  else
    do c <- load cur;
    if age c <? lifespan c then ret cur
    else ret None.

(** ** Priority *)

(** The scan of the release functions: the first waiter of the highest
    priority. *)
Definition higher_prio (p n : process) : bool := prio n <? prio p.

(** The tail of the release functions, once a waiter is chosen. *)
Definition wake (waiter : ptr) : M unit :=
  do w <- load waiter;
  assert (bool_decide (status w = PROCESS_BLOCKED));;
  list_del_init waiter;;
  store waiter (set_status PROCESS_READY);;
  readyqueue_add_tail waiter.

Definition prio_acquire (resource_id : nat) : M bool :=
  do r <- get_resource resource_id;
  do cur <- get_current;
  if is_null (owner r) then
    set_owner resource_id cur;;
    ret true
  else
    list_del_init cur;;
    waitqueue_add_tail cur resource_id;;
    store cur (set_status PROCESS_BLOCKED);;
    ret false.

Definition prio_release (resource_id : nat) : M unit :=
  do r <- get_resource resource_id;
  do cur <- get_current;
  assert (ptr_eqb (owner r) cur);;
  set_owner resource_id None;;
  if negb (list_empty (waitqueue r)) then
    do waiter <- scan higher_prio (waitqueue r) None;
    wake waiter
  else ret tt.

Definition prio_schedule : M ptr :=
  do rq <- get_readyqueue;
  do cur <- get_current;
  if negb (list_empty rq) then
    do next <- scan (fun p n => (prio n <? prio p)
                                && bool_decide (status p = PROCESS_READY)) rq None;
    do finished <- (if is_null cur then ret true
                    else do c <- load cur; ret (age c =? lifespan c));
    if finished then
      list_del_init next;;
      ret next
    else
      do c <- load cur;
      if negb (bool_decide (status c = PROCESS_BLOCKED)) then
        do n <- load next;
        if prio n <? prio c then ret cur
        else
          (if negb (age c =? lifespan c) then readyqueue_add_tail cur
           else ret tt);;
          list_del_init next;;
          ret next
      else
        list_del_init next;;
        ret next
  else
    do c <- load cur;
    if age c <? lifespan c then ret cur
    else ret None.

Section WithCeiling.

(** [MAX_PRIO] is a macro of [process.h], which is not among the sources;
    the policies are embedded for any value of it. *)
Variable MAX_PRIO : Z.

(** ** Priority + aging *)

Definition pa_acquire (resource_id : nat) : M bool :=
  do r <- get_resource resource_id;
  do cur <- get_current;
  if is_null (owner r) then
    set_owner resource_id cur;;
    ret true
  else
    do c <- load cur;
    do o <- load (owner r);
    if prio c <? prio o then
      store cur (set_status PROCESS_BLOCKED);;
      waitqueue_add_tail cur resource_id;;
      ret false
    else
      store (owner r) (set_status PROCESS_BLOCKED);;
      waitqueue_add_tail (owner r) resource_id;;
      set_owner resource_id cur;;
      ret true.

(** [pa_release] runs its scan over [readyqueue]. *)
Definition pa_release (resource_id : nat) : M unit :=
  do r <- get_resource resource_id;
  do cur <- get_current;
  assert (ptr_eqb (owner r) cur);;
  set_owner resource_id None;;
  if negb (list_empty (waitqueue r)) then
    do rq <- get_readyqueue;
    do waiter <- scan higher_prio rq None;
    wake waiter
  else ret tt.

(** [if (p->prio < MAX_PRIO) p->prio++;] *)
Definition pa_age (p : pid) : M unit :=
  do pp <- load (Some p);
  if prio pp <? MAX_PRIO then store (Some p) (set_prio (u32 (prio pp + 1)))
  else ret tt.

(** The loop of [pa_schedule] that ages the ready queue while it looks
    for the highest priority. *)
Fixpoint pa_scan (q : list pid) (next : ptr) : M ptr :=
  match q with
  | [] => ret next
  | p :: q' =>
      pa_age p;;
      match next with
      | None => pa_scan q' (Some p)
      | Some _ =>
          do pp <- load (Some p);
          do pn <- load next;
          pa_scan q' (if higher_prio pp pn then Some p else next)
      end
  end.

(** The [pick_next:] part of [pa_schedule]. *)
Definition pa_pick_next : M ptr :=
  do rq <- get_readyqueue;
  if negb (list_empty rq) then
    do next <- scan higher_prio rq None;
    list_del_init next;;
    ret next
  else ret None.

Definition pa_schedule : M ptr :=
  do cur <- get_current;
  do skip <- absent_or_blocked cur;
  if skip then pa_pick_next
  else
    do rq <- get_readyqueue;
    if negb (list_empty rq) then
      do c0 <- load cur;
      store cur (set_prio (prio_orig c0));;
      do next <- pa_scan rq None;
      do c <- load cur;
      if age c <? lifespan c then
        do n <- load next;
        if prio n <? prio c then ret cur
        else
          readyqueue_add_tail cur;;
          list_del_init next;;
          ret next
      else
        list_del_init next;;
        ret next
    else
      do c <- load cur;
      if age c <? lifespan c then ret cur
      else ret None.

(** ** Priority + PCP *)

Definition pcp_acquire (resource_id : nat) : M bool :=
  do r <- get_resource resource_id;
  do cur <- get_current;
  if is_null (owner r) then
    set_owner resource_id cur;;
    store cur (set_prio MAX_PRIO);;
    ret true
  else
    list_del_init cur;;
    store cur (set_status PROCESS_BLOCKED);;
    waitqueue_add_tail cur resource_id;;
    ret false.

End WithCeiling.

Arguments pa_scan : simpl never.

Definition pcp_release (resource_id : nat) : M unit :=
  do r <- get_resource resource_id;
  do o <- load (owner r);
  store (owner r) (set_prio (prio_orig o));;
  do cur <- get_current;
  assert (ptr_eqb (owner r) cur);;
  set_owner resource_id None;;
  if negb (list_empty (waitqueue r)) then
    do waiter <- scan higher_prio (waitqueue r) None;
    wake waiter
  else ret tt.

Definition pcp_schedule : M ptr :=
  do rq <- get_readyqueue;
  do cur <- get_current;
  if negb (list_empty rq) then
    do next <- scan higher_prio rq None;
    if is_null cur then
      list_del_init next;;
      ret next
    else
      do c <- load cur;
      if age c <? lifespan c then
        do n <- load next;
        if prio c <=? prio n then
          (if negb (bool_decide (status c = PROCESS_BLOCKED))
           then readyqueue_add_tail cur
           else ret tt);;
          list_del_init next;;
          ret next
        else ret cur
      else
        list_del_init next;;
        ret next
  else
    do c <- load cur;
    if age c <? lifespan c then ret cur
    else ret None.

(** ** Priority + PIP *)

Definition pip_acquire (resource_id : nat) : M bool :=
  do r <- get_resource resource_id;
  do cur <- get_current;
  if is_null (owner r) then
    set_owner resource_id cur;;
    ret true
  else
    do c <- load cur;
    do o <- load (owner r);
    (if prio o <? prio c then store (owner r) (set_prio (prio c))
     else ret tt);;
    list_del_init cur;;
    store cur (set_status PROCESS_BLOCKED);;
    waitqueue_add_tail cur resource_id;;
    ret false.

Definition pip_release (resource_id : nat) : M unit :=
  do r <- get_resource resource_id;
  do cur <- get_current;
  assert (ptr_eqb (owner r) cur);;
  do o <- load (owner r);
  store (owner r) (set_prio (prio_orig o));;
  set_owner resource_id None;;
  if negb (list_empty (waitqueue r)) then
    do waiter <- scan higher_prio (waitqueue r) None;
    wake waiter
  else ret tt.

Definition pip_schedule : M ptr :=
  do rq <- get_readyqueue;
  do cur <- get_current;
  if negb (list_empty rq) then
    do next <- scan higher_prio rq None;
    if is_null cur then
      list_del_init next;;
      ret next
    else
      do c <- load cur;
      if age c <? lifespan c then
        do n <- load next;
        if prio c <=? prio n then
          (if negb (bool_decide (status c = PROCESS_BLOCKED))
           then readyqueue_add_tail cur
           else ret tt);;
          list_del_init next;;
          ret next
        else if bool_decide (status c = PROCESS_BLOCKED) then
          list_del_init next;;
          ret next
        else ret cur
      else
        list_del_init next;;
        ret next
  else
    do c <- load cur;
    if age c <? lifespan c then ret cur
    else ret None.

(** ** The schedulers *)

(** [struct scheduler], with the three callbacks the policies differ in. *)
Record scheduler : Type := mk_scheduler {
  acquire : nat -> M bool;
  release : nat -> M unit;
  schedule : M ptr
}.

Definition fcfs_scheduler : scheduler :=
  mk_scheduler fcfs_acquire fcfs_release fcfs_schedule.
Definition sjf_scheduler : scheduler :=
  mk_scheduler fcfs_acquire fcfs_release sjf_schedule.
Definition stcf_scheduler : scheduler :=
  mk_scheduler fcfs_acquire fcfs_release stcf_schedule.
Definition rr_scheduler : scheduler :=
  mk_scheduler fcfs_acquire fcfs_release rr_schedule.
Definition prio_scheduler : scheduler :=
  mk_scheduler prio_acquire prio_release prio_schedule.
Definition pa_scheduler (MAX_PRIO : Z) : scheduler :=
  mk_scheduler pa_acquire pa_release (pa_schedule MAX_PRIO).
Definition pcp_scheduler (MAX_PRIO : Z) : scheduler :=
  mk_scheduler (pcp_acquire MAX_PRIO) pcp_release pcp_schedule.
Definition pip_scheduler : scheduler :=
  mk_scheduler pip_acquire pip_release pip_schedule.

(** The eight policies the driver chooses from. *)
Inductive policy : Type :=
  | FCFS | SJF | STCF | RR | PRIO | PA | PCP | PIP.

Definition scheduler_of (MAX_PRIO : Z) (pol : policy) : scheduler :=
  match pol with
  | FCFS => fcfs_scheduler
  | SJF => sjf_scheduler
  | STCF => stcf_scheduler
  | RR => rr_scheduler
  | PRIO => prio_scheduler
  | PA => pa_scheduler MAX_PRIO
  | PCP => pcp_scheduler MAX_PRIO
  | PIP => pip_scheduler
  end.

(** ** Specification vocabulary *)

(** [w] is the first process of [q] whose key is the greatest: the
    processes before it have a smaller key, those after it none greater. *)
Definition first_max (m : gmap pid process) (key : process -> Z)
    (q : list pid) (w : pid) : Prop :=
  exists q1 q2 pw,
    q = q1 ++ w :: q2 /\ m !! w = Some pw /\
    (forall i p, i ∈ q1 -> m !! i = Some p -> key p < key pw) /\
    (forall i p, i ∈ q2 -> m !! i = Some p -> key p <= key pw).

(** Every handle of [q] refers to a process of the table. *)
Definition live (m : gmap pid process) (q : list pid) : Prop :=
  forall i, i ∈ q -> is_Some (m !! i).

(** All the wait queues, in the order of the resource table. *)
Definition waitqueues (s : state) : list pid :=
  concat (waitqueue <$> resources s).

Arguments waitqueues : simpl never.

(** Each process is in at most one collection, at most once. *)
Definition membership_ok (s : state) : Prop :=
  NoDup (readyqueue s ++ waitqueues s).

#[global] Instance membership_ok_dec s : Decision (membership_ok s).
Proof. unfold membership_ok. apply _. Defined.

(** A process after one round of aging in [pa_schedule]. *)
Definition aged (MAX_PRIO : Z) (p : process) : process :=
  if prio p <? MAX_PRIO then set_prio (u32 (prio p + 1)) p else p.

(** The process table after the aging loop has visited process [i], and
    after it has visited the queue [q]. *)
Definition age_one (MAX_PRIO : Z) (m : gmap pid process) (i : pid)
  : gmap pid process :=
  match m !! i with
  | Some p => if prio p <? MAX_PRIO then <[i := set_prio (u32 (prio p + 1)) p]> m else m
  | None => m
  end.

Definition age_queue (MAX_PRIO : Z) (m : gmap pid process) (q : list pid)
  : gmap pid process :=
  foldl (age_one MAX_PRIO) m q.

Arguments age_queue : simpl never.

(** ** The driver *)

(** Modelled from the spec: the tick loop that drives the policies is not
    among the sources.  The spec gives its contract in sections 2, 3 and
    5: the driver creates the processes (READY, not yet run, at their
    original priority) and puts them on the ready queue; each tick it
    calls [schedule] and makes the process returned the current one; the
    process that runs advances its age by one, and during its tick it may
    ask for a resource ([acquire]) or give one back ([release]).  The
    process that runs is in no queue and its age stays within its
    lifespan (section 3): a tick of execution, an [acquire] and a
    [release] are moves of a current process that is in no queue, and a
    tick and an [acquire] of one that has ticks left.  [schedule] is
    called in any state. *)
Inductive action : Type :=
  | Fork (i : pid) (span priority : Z)
  | Dispatch
  | Run
  | Acquire (resource_id : nat)
  | Release (resource_id : nat).

(** Modelled from the spec: one move of the driver, which is not among
    the sources, under the contract above; [None] when the contract does
    not allow the move or the policy does not return. *)
Definition driver_step (sch : scheduler) (a : action) (s : state) : option state :=
  match a with
  | Fork i span priority =>
      if bool_decide (procs s !! i = None) && (0 <? span) then
        Some (mk_state
                (<[i := mk_process PROCESS_READY 0 span priority priority]> (procs s))
                (current s) (readyqueue s ++ [i]) (resources s))
      else None
  | Dispatch =>
      match schedule sch s with
      | Done next s' => Some (with_current next s')
      | _ => None
      end
  | Run =>
      match current s with
      | Some c =>
          match procs s !! c with
          | Some pc =>
              if (age pc <? lifespan pc)
                 && bool_decide (c ∉ readyqueue s ++ waitqueues s)
              then Some (with_procs (<[c := set_age (age pc + 1) pc]> (procs s)) s)
              else None
          | None => None
          end
      | None => None
      end
  | Acquire resource_id =>
      match current s with
      | Some c =>
          match procs s !! c with
          | Some pc =>
              if (age pc <? lifespan pc)
                 && bool_decide (c ∉ readyqueue s ++ waitqueues s)
              then
                match acquire sch resource_id s with
                | Done _ s' => Some s'
                | _ => None
                end
              else None
          | None => None
          end
      | None => None
      end
  | Release resource_id =>
      match current s with
      | Some c =>
          if bool_decide (c ∉ readyqueue s ++ waitqueues s) then
            match release sch resource_id s with
            | Done _ s' => Some s'
            | _ => None
            end
          else None
      | None => None
      end
  end.

(** Modelled from the spec: a run of the driver. *)
Fixpoint run_driver (sch : scheduler) (acts : list action) (s : state)
  : option state :=
  match acts with
  | [] => Some s
  | a :: acts' =>
      match driver_step sch a s with
      | Some s' => run_driver sch acts' s'
      | None => None
      end
  end.

(** Nothing has been created yet; the [n] resources are free. *)
Definition initial (n : nat) : state :=
  mk_state ∅ None [] (replicate n (mk_resource None [])).


(** ** Scenarios *)

Definition table (l : list (pid * process)) : gmap pid process := list_to_map l.

(** Two processes are created; process 2 gets the resource and runs one
    tick; round-robin then runs process 1, which asks for the resource and
    blocks. *)
Definition contention : list action :=
  [Fork 2 5 1; Fork 1 2 1; Dispatch; Acquire 0; Run; Dispatch; Acquire 0].

(** The same under STCF, where the shorter process 1 arrives later. *)
Definition late_contention : list action :=
  [Fork 2 5 1; Dispatch; Acquire 0; Run; Fork 1 2 1; Dispatch; Acquire 0].

Definition blocked_current : state :=
  mk_state
    (table [(1%nat, mk_process PROCESS_BLOCKED 0 2 1 1);
            (2%nat, mk_process PROCESS_READY 1 5 1 1)])
    (Some 1%nat) [2%nat] [mk_resource (Some 2%nat) [1%nat]].

(** Process 1 holds resource 0, process 2 waits for it and process 3 is
    ready. *)
Definition release_with_waiter : state :=
  mk_state
    (table [(1%nat, mk_process PROCESS_RUNNING 2 6 3 3);
            (2%nat, mk_process PROCESS_BLOCKED 1 4 5 5);
            (3%nat, mk_process PROCESS_READY 0 3 1 1)])
    (Some 1%nat) [3%nat] [mk_resource (Some 1%nat) [2%nat]].

(** The current process and the only ready process have three ticks left
    each. *)
Definition stcf_tie : state :=
  mk_state
    (table [(1%nat, mk_process PROCESS_RUNNING 1 4 0 0);
            (2%nat, mk_process PROCESS_READY 0 3 0 0)])
    (Some 1%nat) [2%nat] [].

(** The current process was aged from 3 to 5 while it waited; nothing else
    is ready. *)
Definition pa_alone : state :=
  mk_state
    (table [(1%nat, mk_process PROCESS_RUNNING 1 4 5 3)])
    (Some 1%nat) [] [].

(** Process 2 holds resource 0 at the ceiling 64; process 1 runs and does
    not hold it. *)
Definition release_by_stranger : state :=
  mk_state
    (table [(1%nat, mk_process PROCESS_RUNNING 1 4 2 2);
            (2%nat, mk_process PROCESS_READY 1 5 64 3)])
    (Some 1%nat) [2%nat] [mk_resource (Some 2%nat) []].

(** Process 1 runs and resource 0 is free. *)
Definition pcp_free : state :=
  mk_state
    (table [(1%nat, mk_process PROCESS_RUNNING 0 4 2 2);
            (2%nat, mk_process PROCESS_READY 0 3 5 5)])
    (Some 1%nat) [2%nat] [mk_resource None []].

(** Process 1 holds resource 0 at the ceiling 64; processes 2, 3 and 4 wait
    for it, 3 and 4 at the highest priority. *)
Definition pcp_held : state :=
  mk_state
    (table [(1%nat, mk_process PROCESS_RUNNING 2 4 64 2);
            (2%nat, mk_process PROCESS_BLOCKED 0 3 5 5);
            (3%nat, mk_process PROCESS_BLOCKED 0 3 7 7);
            (4%nat, mk_process PROCESS_BLOCKED 0 3 7 7)])
    (Some 1%nat) [] [mk_resource (Some 1%nat) [2%nat; 3%nat; 4%nat]].

(** Process 1 holds resource 0 and waits in the ready queue; process 2, of
    a higher priority, runs. *)
Definition pip_contention : state :=
  mk_state
    (table [(1%nat, mk_process PROCESS_READY 4 10 1 1);
            (2%nat, mk_process PROCESS_RUNNING 0 3 5 5)])
    (Some 2%nat) [1%nat] [mk_resource (Some 1%nat) []].

(** Nothing to run. *)
Definition idle : state := mk_state ∅ None [] [mk_resource None []].

(** The current process has two ticks left, the ready one three. *)
Definition stcf_shorter : state :=
  mk_state
    (table [(1%nat, mk_process PROCESS_RUNNING 2 4 0 0);
            (2%nat, mk_process PROCESS_READY 0 3 0 0)])
    (Some 1%nat) [2%nat] [].

(** ** The states the operations lead to *)

(** [pcp_acquire] granted resource [r] to the current process [c]. *)
Definition pcp_granted (MAX_PRIO : Z) (r : nat) (x : resource) (c : pid)
    (pc : process) (s : state) : state :=
  mk_state (<[c := set_prio MAX_PRIO pc]> (procs s)) (current s) (readyqueue s)
    (<[r := mk_resource (Some c) (waitqueue x)]> (resources s)).

(** The owner [c] of [r] is back at its original priority and [r] is free. *)
Definition pcp_released (r : nat) (x : resource) (c : pid) (pc : process)
    (s : state) : state :=
  mk_state (<[c := set_prio (prio_orig pc) pc]> (procs s)) (current s)
    (readyqueue s) (<[r := mk_resource None (waitqueue x)]> (resources s)).

(** The waiter [w] left its queue, is READY and at the tail of the ready
    queue. *)
Definition woken (w : pid) (pw : process) (s : state) : state :=
  mk_state (<[w := set_status PROCESS_READY pw]> (procs s)) (current s)
    (unlink w (readyqueue s) ++ [w]) (unlink_resource w <$> resources s).

(** ** Two sentences of the spec, as they are written *)

(** STCF: an unfinished current process whose remaining time compares as
    [cmp] with that of every ready process goes on, and the ready queue
    stays as it is.  The spec reads [cmp] as "less than or equal". *)
Definition stcf_keeps_current (cmp : Z -> Z -> Prop) (s : state) : Prop :=
  forall c pc,
    current s = Some c -> procs s !! c = Some pc -> lifespan pc <> age pc ->
    readyqueue s <> [] ->
    (forall i p, i ∈ readyqueue s -> procs s !! i = Some p ->
                 cmp (remaining pc) (remaining p)) ->
    exists s', stcf_schedule s = Done (Some c) s' /\ readyqueue s' = readyqueue s.

(** Priority + aging: whenever the current process exists and is not
    blocked, [schedule] leaves it at its original priority. *)
Definition pa_resets_current (MAX_PRIO : Z) (s : state) : Prop :=
  forall c pc,
    current s = Some c -> procs s !! c = Some pc ->
    status pc <> PROCESS_BLOCKED -> c ∉ readyqueue s ->
    exists next s' pc',
      pa_schedule MAX_PRIO s = Done next s' /\
      procs s' !! c = Some pc' /\ prio pc' = prio_orig pc.

(** Priority + aging: process 1 runs, aged to 5 from its original 3, and
    three processes are ready. *)
Definition pa_competing : state :=
  mk_state
    (table [(1%nat, mk_process PROCESS_RUNNING 1 4 5 3);
            (2%nat, mk_process PROCESS_READY 0 3 2 2);
            (3%nat, mk_process PROCESS_READY 0 3 3 3);
            (4%nat, mk_process PROCESS_READY 0 2 3 0)])
    (Some 1%nat) [2%nat; 3%nat; 4%nat] [].

(** ** The invariant on ages *)

(** The age and the lifespan of process [i] in the table [m]. *)
Definition life (m : gmap pid process) (i : pid) : option (Z * Z) :=
  (fun p => (age p, lifespan p)) <$> m !! i.

(** Process [i] exists and has ticks left. *)
Definition unfinished (m : gmap pid process) (i : pid) : Prop :=
  exists p, m !! i = Some p /\ age p < lifespan p.

(** The processes that are in some queue. *)
Definition queued (s : state) : list pid := readyqueue s ++ waitqueues s.

(** Process [o] owns some resource. *)
Definition owns (s : state) (o : pid) : Prop :=
  exists r x, resources s !! r = Some x /\ owner x = Some o.

(** The invariant: ages stay within the lifespan, the queues hold
    unfinished processes only, the current process exists, and a resource
    is owned by the current process or by an unfinished one. *)
Record sound (s : state) : Prop := mk_sound {
  sound_ages : forall i p, procs s !! i = Some p -> 0 <= age p <= lifespan p;
  sound_queues : forall i, i ∈ queued s -> unfinished (procs s) i;
  sound_current : forall c, current s = Some c -> is_Some (procs s !! c);
  sound_owners : forall o, owns s o -> current s = Some o \/ unfinished (procs s) o
}.

(** The part of the invariant the policies themselves keep, whatever the
    owners are: ages within the lifespan, and unfinished processes in the
    queues. *)
Record settled (s : state) : Prop := mk_settled {
  settled_ages : forall i p, procs s !! i = Some p -> 0 <= age p <= lifespan p;
  settled_queues : forall i, i ∈ queued s -> unfinished (procs s) i
}.

(** A process that may be put on a queue of a state that comes after [s]:
    it was on a queue of [s], or it has ticks left. *)
Definition admissible (s : state) (i : pid) : Prop :=
  i ∈ queued s \/ unfinished (procs s) i.

(** What a policy operation started in [s] may have done when it is in
    [s']: ages and lifespans are as they were, the queues hold admissible
    processes, the current process is the same, and a process that owns a
    resource owned one before or satisfies [P]. *)
Record effect (P : pid -> Prop) (s s' : state) : Prop := mk_effect {
  eff_life : forall i, life (procs s') i = life (procs s) i;
  eff_queued : forall i, i ∈ queued s' -> admissible s i;
  eff_current : current s' = current s;
  eff_owners : forall o, owns s' o -> owns s o \/ P o
}.

(** The setters of the policies write neither the age nor the lifespan. *)
Definition keeps_life (f : process -> process) : Prop :=
  forall x, age (f x) = age x /\ lifespan (f x) = lifespan x.

(** The invariant, as a test on a state that is written out. *)
Definition unfinishedb (m : gmap pid process) (i : pid) : bool :=
  match m !! i with
  | Some p => age p <? lifespan p
  | None => false
  end.

Definition soundb (s : state) : bool :=
  bool_decide (map_Forall (fun _ p => 0 <= age p <= lifespan p) (procs s))
  && forallb (unfinishedb (procs s)) (queued s)
  && match current s with
     | Some c => bool_decide (is_Some (procs s !! c))
     | None => true
     end
  && forallb (fun x => match owner x with
                       | Some o => bool_decide (current s = Some o)
                                   || unfinishedb (procs s) o
                       | None => true
                       end) (resources s).

(** Resource [r] after its owner gave it back: free, the wait queue as it
    was. *)
Definition freed (r : nat) (x : resource) (s : state) : state :=
  with_resources (<[r := mk_resource None (waitqueue x)]> (resources s)) s.

(** The current process [c] blocked on resource [r]: BLOCKED, out of the
    queue it was in and at the tail of the wait queue of [r]. *)
Definition blocked_on (r : nat) (x : resource) (c : pid) (pc : process)
    (s : state) : state :=
  mk_state (<[c := set_status PROCESS_BLOCKED pc]> (procs s)) (current s)
    (unlink c (readyqueue s))
    (<[r := mk_resource (owner x) (unlink c (waitqueue x) ++ [c])]>
       (unlink_resource c <$> resources s)).

(** Every process of the queue [q] exists and is BLOCKED. *)
Definition all_blocked (m : gmap pid process) (q : list pid) : Prop :=
  forall i, i ∈ q -> exists p, m !! i = Some p /\ status p = PROCESS_BLOCKED.

(** Every process of the queue [q] exists and is not BLOCKED. *)
Definition none_blocked (m : gmap pid process) (q : list pid) : Prop :=
  forall i, i ∈ q -> exists p, m !! i = Some p /\ status p <> PROCESS_BLOCKED.

(** Process 1 runs, processes 2 and 3 are ready, and resource 0 is free
    with nobody waiting. *)
Definition free_resource : state :=
  mk_state
    (table [(1%nat, mk_process PROCESS_RUNNING 1 4 2 2);
            (2%nat, mk_process PROCESS_READY 0 3 5 5);
            (3%nat, mk_process PROCESS_READY 0 2 5 5)])
    (Some 1%nat) [2%nat; 3%nat] [mk_resource None []].

(** Process 3 holds resource 0 and waits in the ready queue behind
    process 2; process 1, of a lower priority, runs. *)
Definition held_resource : state :=
  mk_state
    (table [(1%nat, mk_process PROCESS_RUNNING 1 4 2 2);
            (2%nat, mk_process PROCESS_READY 0 3 5 5);
            (3%nat, mk_process PROCESS_READY 1 2 5 5)])
    (Some 1%nat) [2%nat; 3%nat] [mk_resource (Some 3%nat) []].

(** Process 3 has run its two ticks and still owns resource 0; it is in
    no queue.  Process 1 runs and process 2 is ready. *)
Definition held_by_finished : state :=
  mk_state
    (table [(1%nat, mk_process PROCESS_RUNNING 1 4 5 5);
            (2%nat, mk_process PROCESS_READY 0 3 5 5);
            (3%nat, mk_process PROCESS_READY 2 2 2 2)])
    (Some 1%nat) [2%nat] [mk_resource (Some 3%nat) []].

(** Process [w] was taken out of the queue that held it. *)
Definition dequeued (w : pid) (s : state) : state :=
  mk_state (procs s) (current s) (unlink w (readyqueue s))
    (unlink_resource w <$> resources s).

(** Process [c] was appended to the ready queue. *)
Definition requeued (c : pid) (s : state) : state :=
  with_readyqueue (readyqueue s ++ [c]) s.

(** [w] is the first process of [q] whose key is the least. *)
Definition first_min (m : gmap pid process) (key : process -> Z)
    (q : list pid) (w : pid) : Prop :=
  exists q1 q2 pw,
    q = q1 ++ w :: q2 /\ m !! w = Some pw /\
    (forall i p, i ∈ q1 -> m !! i = Some p -> key pw < key p) /\
    (forall i p, i ∈ q2 -> m !! i = Some p -> key pw <= key p).

(** There is no current process, or it is blocked, or it has no tick
    left: the tests after which [fcfs_schedule], [sjf_schedule] and
    [pa_schedule] go to [pick_next]. *)
Definition gives_way (s : state) : Prop :=
  match current s with
  | None => True
  | Some c =>
      exists pc, procs s !! c = Some pc /\
                 (status pc = PROCESS_BLOCKED \/ lifespan pc <= age pc)
  end.

(** Every process of the queue [q] exists and is READY. *)
Definition all_ready (m : gmap pid process) (q : list pid) : Prop :=
  forall i, i ∈ q -> exists p, m !! i = Some p /\ status p = PROCESS_READY.

(** Process 1 runs at priority 4 with three ticks left; processes 2, 3 and
    4 are ready, 3 and 4 at priority 5, 3 being the shortest job. *)
Definition three_ready : state :=
  mk_state
    (table [(1%nat, mk_process PROCESS_RUNNING 1 4 4 4);
            (2%nat, mk_process PROCESS_READY 0 6 2 2);
            (3%nat, mk_process PROCESS_READY 0 2 5 5);
            (4%nat, mk_process PROCESS_READY 0 2 5 5)])
    (Some 1%nat) [2%nat; 3%nat; 4%nat] [mk_resource None []].

(** As [three_ready], with no current process. *)
Definition three_ready_idle : state := with_current None three_ready.

(** Process 1 runs with six ticks left; process 2 is ready with six ticks
    left and process 3 with two. *)
Definition stcf_longer : state :=
  mk_state
    (table [(1%nat, mk_process PROCESS_RUNNING 4 10 0 0);
            (2%nat, mk_process PROCESS_READY 0 6 0 0);
            (3%nat, mk_process PROCESS_READY 1 3 0 0)])
    (Some 1%nat) [2%nat; 3%nat] [].

(** As [three_ready], with the current process BLOCKED in the wait queue
    of resource 0, which process 2 holds. *)
Definition three_ready_blocked : state :=
  mk_state
    (table [(1%nat, mk_process PROCESS_BLOCKED 1 4 4 4);
            (2%nat, mk_process PROCESS_READY 1 6 2 2);
            (3%nat, mk_process PROCESS_READY 0 2 5 5);
            (4%nat, mk_process PROCESS_READY 0 2 5 5)])
    (Some 1%nat) [2%nat; 3%nat; 4%nat] [mk_resource (Some 2%nat) [1%nat]].


(** ** Counting places *)

(** How often process [i] is in the ready queue, and in the wait queues. *)
Definition in_ready (s : state) (i : pid) : nat :=
  count_occ Nat.eq_dec (readyqueue s) i.

Definition in_wait (s : state) (i : pid) : nat :=
  count_occ Nat.eq_dec (waitqueues s) i.

(** The run of [contention] before process 2 gives up the processor:
    process 2 holds resource 0 and has run one tick. *)
Definition holding : state :=
  mk_state
    (table [(1%nat, mk_process PROCESS_READY 0 2 1 1);
            (2%nat, mk_process PROCESS_READY 1 5 1 1)])
    (Some 2%nat) [1%nat] [mk_resource (Some 2%nat) []].

(** The run of [contention] before its last move: process 1 runs and is
    about to ask for resource 0, which process 2 holds. *)
Definition about_to_ask : state :=
  mk_state
    (table [(1%nat, mk_process PROCESS_READY 0 2 1 1);
            (2%nat, mk_process PROCESS_READY 1 5 1 1)])
    (Some 1%nat) [2%nat] [mk_resource (Some 2%nat) []].

(** ** A finished process stays out *)





(** ** The monad and the primitives, step by step *)

Ltac munfold :=
  unfold set_owner, wake, absent_or_blocked, ptr_eqb in *;
  unfold bind, ret, assert, get_current, get_readyqueue, get_resource,
    put_resource, load, store, list_del_init, readyqueue_add_tail,
    waitqueue_add_tail, with_procs, with_readyqueue, with_resources,
    with_current in *.

(** One step of symbolic execution: compute, and use the lookups that the
    hypotheses give. *)
Ltac mstep :=
  cbn;
  repeat match goal with
  | H : ?l = Some _ |- context [match ?l with _ => _ end] => rewrite H; cbn
  | H : ?l = None |- context [match ?l with _ => _ end] => rewrite H; cbn
  | |- context [<[?i := _]> _ !! ?i] => rewrite lookup_insert_eq; cbn
  | |- context [<[?i := _]> ?m !! ?j] =>
      rewrite (lookup_insert_ne m i j) by (done || congruence); cbn
  end.

Lemma bind_Done {A B : Type} (m : M A) (k : A -> M B) s a s' :
  m s = Done a s' -> bind m k s = k a s'.
Proof. intros H. unfold bind. now rewrite H. Qed.

Lemma bind_Abort {A B : Type} (m : M A) (k : A -> M B) s s' :
  m s = Abort s' -> bind m k s = Abort s'.
Proof. intros H. unfold bind. now rewrite H. Qed.

Lemma bind_Fault {A B : Type} (m : M A) (k : A -> M B) s :
  m s = Fault -> bind m k s = Fault.
Proof. intros H. unfold bind. now rewrite H. Qed.

Lemma load_Some i x s : procs s !! i = Some x -> load (Some i) s = Done x s.
Proof. intros H. unfold load. now rewrite H. Qed.

Lemma store_Some i x f s :
  procs s !! i = Some x ->
  store (Some i) f s = Done tt (with_procs (<[i := f x]> (procs s)) s).
Proof. intros H. unfold store. now rewrite H. Qed.

Lemma get_resource_Some r x s :
  resources s !! r = Some x -> get_resource r s = Done x s.
Proof. intros H. unfold get_resource. now rewrite H. Qed.

Lemma set_owner_Some r x o s :
  resources s !! r = Some x ->
  set_owner r o s
  = Done tt (with_resources (<[r := mk_resource o (waitqueue x)]> (resources s)) s).
Proof.
  intros H. unfold set_owner. rewrite (bind_Done _ _ _ _ _ (get_resource_Some _ _ _ H)).
  reflexivity.
Qed.

Lemma list_del_init_Some i x s :
  procs s !! i = Some x ->
  list_del_init (Some i) s
  = Done tt (mk_state (procs s) (current s) (unlink i (readyqueue s))
               (unlink_resource i <$> resources s)).
Proof. intros H. unfold list_del_init. now rewrite H. Qed.

Lemma readyqueue_add_tail_Some i x s :
  procs s !! i = Some x ->
  readyqueue_add_tail (Some i) s = Done tt (with_readyqueue (readyqueue s ++ [i]) s).
Proof. intros H. unfold readyqueue_add_tail. now rewrite H. Qed.

Lemma waitqueue_add_tail_Some i x r y s :
  procs s !! i = Some x -> resources s !! r = Some y ->
  waitqueue_add_tail (Some i) r s
  = Done tt (with_resources
               (<[r := mk_resource (owner y) (waitqueue y ++ [i])]> (resources s)) s).
Proof. intros H1 H2. unfold waitqueue_add_tail. now rewrite H1, H2. Qed.

(** Within the lifespan, and on values that fit an [unsigned int], the
    subtraction of STCF is the remaining time. *)
Lemma remaining_exact p :
  0 <= age p <= lifespan p -> lifespan p < 2 ^ 32 ->
  remaining p = lifespan p - age p.
Proof. intros Ha Hl. unfold remaining, u32. apply Z.mod_small. lia. Qed.

Lemma unlink_notin i q : i ∉ q -> unlink i q = q.
Proof.
  intros H. unfold unlink. induction q as [|j q IH]; [reflexivity|].
  rewrite filter_cons_True.
  - f_equal. apply IH. intros Hin. apply H. now right.
  - intros ->. apply H. now left.
Qed.

Lemma elem_of_unlink i j q : j ∈ unlink i q <-> j <> i /\ j ∈ q.
Proof. unfold unlink. apply (list_elem_of_filter (fun j => j <> i)). Qed.

Lemma unlink_app i q1 q2 : unlink i (q1 ++ q2) = unlink i q1 ++ unlink i q2.
Proof. unfold unlink. apply filter_app. Qed.

Lemma unlink_cons_eq i q : unlink i (i :: q) = unlink i q.
Proof. unfold unlink. rewrite filter_cons_False; [reflexivity|]. intros H. now apply H. Qed.

Lemma unlink_cons_ne i j q : j <> i -> unlink i (j :: q) = j :: unlink i q.
Proof. intros H. unfold unlink. now rewrite filter_cons_True. Qed.

(** *** Processes that are linked once *)

Lemma unlink_resources_notin i rs :
  i ∉ concat (waitqueue <$> rs) -> unlink_resource i <$> rs = rs.
Proof.
  induction rs as [|x rs IH]; cbn; intros H; [reflexivity|].
  apply not_elem_of_app in H as [Hx Hrs]. f_equal; [|now apply IH].
  destruct x as [o q]. unfold unlink_resource. cbn in *. f_equal.
  now apply unlink_notin.
Qed.

Lemma ready_not_waiting s i :
  membership_ok s -> i ∈ readyqueue s -> i ∉ waitqueues s.
Proof.
  unfold membership_ok. intros H Hi. apply NoDup_app in H as (_ & H & _).
  now apply H.
Qed.

Lemma waiting_not_ready s i :
  membership_ok s -> i ∈ waitqueues s -> i ∉ readyqueue s.
Proof. intros H Hi Hr. now apply (ready_not_waiting s i H Hr). Qed.

Lemma membership_ready s : membership_ok s -> NoDup (readyqueue s).
Proof. unfold membership_ok. intros H. now apply NoDup_app in H as (H & _ & _). Qed.

Lemma not_queued s i :
  i ∉ queued s <-> (i ∉ readyqueue s) /\ (i ∉ waitqueues s).
Proof. unfold queued. apply not_elem_of_app. Qed.

(** Taking a process of the ready queue out touches no wait queue. *)
Lemma dequeued_ready s w :
  membership_ok s -> w ∈ readyqueue s ->
  dequeued w s
  = mk_state (procs s) (current s) (unlink w (readyqueue s)) (resources s).
Proof.
  intros Hm Hw. unfold dequeued. f_equal.
  apply unlink_resources_notin. now apply (ready_not_waiting s w Hm).
Qed.

(** Taking out a process that is in no queue changes nothing. *)
Lemma dequeued_notin s c : c ∉ queued s -> dequeued c s = s.
Proof.
  intros H. apply not_queued in H as [Hr Hw]. destruct s as [m cur rq rs].
  unfold dequeued. cbn in *. f_equal; [now apply unlink_notin|].
  now apply unlink_resources_notin.
Qed.

(** ** The selection loops *)

Lemma scan_nil better next : scan better [] next = ret next.
Proof. reflexivity. Qed.

Lemma scan_cons_None better p q : scan better (p :: q) None = scan better q (Some p).
Proof. reflexivity. Qed.

Lemma scan_cons_Some better p q n :
  scan better (p :: q) (Some n)
  = (do pp <- load (Some p);
     do pn <- load (Some n);
     scan better q (if better pp pn then Some p else Some n)).
Proof. reflexivity. Qed.

Section Scan.

Variable better : process -> process -> bool.

(** The loop does not write, and it returns a process of the queue (or the
    one it started with). *)
Lemma scan_elem q : forall n s,
  live (procs s) (n :: q) ->
  exists w, scan better q (Some n) s = Done (Some w) s /\ w ∈ n :: q.
Proof.
  induction q as [|p q IH]; intros n s Hl.
  - exists n. split; [reflexivity | now left].
  - destruct (Hl p) as [pp Hp]; [right; now left|].
    destruct (Hl n) as [pn Hn]; [now left|].
    rewrite scan_cons_Some.
    rewrite (bind_Done _ _ _ _ _ (load_Some _ _ _ Hp)).
    rewrite (bind_Done _ _ _ _ _ (load_Some _ _ _ Hn)).
    destruct (better pp pn).
    + destruct (IH p s) as (w & Hw & Hin).
      { intros i Hi. apply Hl. now right. }
      exists w. split; [exact Hw | now right].
    + destruct (IH n s) as (w & Hw & Hin).
      { intros i Hi. apply Hl. apply elem_of_cons in Hi as [->|Hi]; [now left|].
        right. now right. }
      exists w. split; [exact Hw|].
      apply elem_of_cons in Hin as [->|Hin]; [now left | right; now right].
Qed.

Lemma scan_None_elem q s :
  q <> [] -> live (procs s) q ->
  exists w, scan better q None s = Done (Some w) s /\ w ∈ q.
Proof.
  destruct q as [|n q]; [congruence|]. intros _ Hl.
  rewrite scan_cons_None. now apply scan_elem.
Qed.

(** When [better] compares a key, the loop finds the first maximum. *)
Variable key : process -> Z.
Hypothesis better_key : forall p n, better p n = (key n <? key p).

Lemma scan_first_max q : forall n s,
  live (procs s) (n :: q) ->
  exists w, scan better q (Some n) s = Done (Some w) s
            /\ first_max (procs s) key (n :: q) w.
Proof.
  induction q as [|p q IH]; intros n s Hl.
  - destruct (Hl n) as [pn Hn]; [now left|].
    exists n. split; [reflexivity|].
    exists [], [], pn. repeat split; [exact Hn | |]; intros i x Hi; inversion Hi.
  - destruct (Hl p) as [pp Hp]; [right; now left|].
    destruct (Hl n) as [pn Hn]; [now left|].
    rewrite scan_cons_Some.
    rewrite (bind_Done _ _ _ _ _ (load_Some _ _ _ Hp)).
    rewrite (bind_Done _ _ _ _ _ (load_Some _ _ _ Hn)).
    rewrite better_key. destruct (Z.ltb_spec (key pn) (key pp)) as [Hlt|Hge].
    + destruct (IH p s) as (w & Hw & q1 & q2 & pw & Hq & Hpw & Hb & Ha).
      { intros i Hi. apply Hl. now right. }
      exists w. split; [exact Hw|].
      exists (n :: q1), q2, pw. split; [cbn; now rewrite Hq|].
      split; [exact Hpw|]. split; [|exact Ha].
      intros i x Hi Hx. apply elem_of_cons in Hi as [->|Hi]; [|now apply (Hb i)].
      assert (x = pn) as -> by congruence.
      destruct q1 as [|p' q1].
      * cbn in Hq. assert (w = p) as -> by congruence.
        assert (pw = pp) as -> by congruence. exact Hlt.
      * cbn in Hq. assert (p' = p) as -> by congruence.
        specialize (Hb p pp). etrans; [exact Hlt|]. apply Hb; [now left | exact Hp].
    + destruct (IH n s) as (w & Hw & q1 & q2 & pw & Hq & Hpw & Hb & Ha).
      { intros i Hi. apply Hl. apply elem_of_cons in Hi as [->|Hi]; [now left|].
        right. now right. }
      exists w. split; [exact Hw|].
      destruct q1 as [|n' q1].
      * cbn in Hq. assert (w = n) as -> by congruence.
        assert (q2 = q) as -> by congruence.
        assert (pw = pn) as -> by congruence.
        exists [], (p :: q), pn. repeat split; [exact Hn | |].
        -- intros i x Hi. inversion Hi.
        -- intros i x Hi Hx. apply elem_of_cons in Hi as [->|Hi].
           ++ assert (x = pp) as -> by congruence. exact Hge.
           ++ now apply (Ha i).
      * cbn in Hq. assert (n' = n) as -> by congruence.
        assert (q = q1 ++ w :: q2) as Hq' by congruence.
        exists (n :: p :: q1), q2, pw. split; [cbn; now rewrite Hq'|].
        split; [exact Hpw|]. split; [|exact Ha].
        intros i x Hi Hx. apply elem_of_cons in Hi as [->|Hi].
        -- apply (Hb n); [now left | exact Hx].
        -- apply elem_of_cons in Hi as [->|Hi].
           ++ assert (x = pp) as -> by congruence.
              eapply Z.le_lt_trans; [exact Hge|]. apply (Hb n); [now left | exact Hn].
           ++ apply (Hb i); [now right | exact Hx].
Qed.

Lemma scan_None_first_max q s :
  q <> [] -> live (procs s) q ->
  exists w, scan better q None s = Done (Some w) s /\ first_max (procs s) key q w.
Proof.
  destruct q as [|n q]; [congruence|]. intros _ Hl.
  rewrite scan_cons_None. now apply scan_first_max.
Qed.

End Scan.

Lemma first_max_insert_notin m key q w i v :
  i ∉ q -> first_max (<[i := v]> m) key q w -> first_max m key q w.
Proof.
  intros Hi (q1 & q2 & pw & -> & Hw & Hb & Ha).
  assert (w <> i) as Hwi.
  { intros ->. apply Hi. apply elem_of_app. right. now left. }
  rewrite lookup_insert_ne in Hw by done.
  exists q1, q2, pw. repeat split; [exact Hw | |].
  - intros j p Hj Hp. apply (Hb j); [exact Hj|].
    rewrite lookup_insert_ne; [exact Hp|].
    intros ->. apply Hi. apply elem_of_app. now left.
  - intros j p Hj Hp. apply (Ha j); [exact Hj|].
    rewrite lookup_insert_ne; [exact Hp|].
    intros ->. apply Hi. apply elem_of_app. right. now right.
Qed.

Lemma first_max_elem m key q w : first_max m key q w -> w ∈ q.
Proof. intros (q1 & q2 & _ & -> & _). apply elem_of_app. right. now left. Qed.

Lemma higher_prio_key p n : higher_prio p n = (prio n <? prio p).
Proof. reflexivity. Qed.

(** Runs the priority scan in the goal and names its result. *)
Ltac scan_max :=
  match goal with
  | |- context [scan higher_prio ?q None ?st] =>
      let w := fresh "w" in
      let Hscan := fresh "Hscan" in
      let Hmax := fresh "Hmax" in
      destruct (scan_None_first_max higher_prio prio higher_prio_key q st)
        as (w & Hscan & Hmax); [ | | rewrite Hscan]
  end.

(** Runs any selection scan in the goal and names its result. *)
Ltac scan_any :=
  match goal with
  | |- context [scan ?b ?q None ?st] =>
      let w := fresh "w" in
      let Hscan := fresh "Hscan" in
      let Hin := fresh "Hin" in
      destruct (scan_None_elem b q st) as (w & Hscan & Hin); [ | | rewrite Hscan]
  end.

(** Membership in a list that is written out. *)
Ltac in_list H :=
  repeat (apply elem_of_cons in H as [H|H]; [subst|]); [..|now inversion H].

(** ** FCFS-style release against the Priority + aging release *)

(** C1, on the code: with a waiter in the wait queue of the resource and
    another process in the ready queue, [pa_release] takes its candidate
    from the ready queue, finds it READY and stops in the assertion,
    leaving the waiter blocked; [prio_release], which the spec says it
    mirrors, wakes the waiter. *)
Theorem pa_release_scans_readyqueue :
  pa_release 0 release_with_waiter
  = Abort (mk_state (procs release_with_waiter) (Some 1%nat) [3%nat]
             [mk_resource None [2%nat]]) /\
  prio_release 0 release_with_waiter
  = Done tt (mk_state
               (table [(1%nat, mk_process PROCESS_RUNNING 2 6 3 3);
                       (2%nat, mk_process PROCESS_READY 1 4 5 5);
                       (3%nat, mk_process PROCESS_READY 0 3 1 1)])
               (Some 1%nat) [3%nat; 2%nat] [mk_resource None []]).
Proof. split; vm_compute; reflexivity. Qed.

(** ** STCF: who wins a tie *)

(** C2, counterexample: the current process and the ready one have three
    ticks left each, and [stcf_schedule] switches to the ready one and
    puts the current process at the tail of the ready queue. *)
Lemma stcf_tie_goes_to_candidate :
  ~ stcf_keeps_current Z.le stcf_tie /\
  stcf_schedule stcf_tie
  = Done (Some 2%nat) (mk_state (procs stcf_tie) (Some 1%nat) [1%nat] []).
Proof.
  split; [|vm_compute; reflexivity].
  intros H.
  destruct (H 1%nat (mk_process PROCESS_RUNNING 1 4 0 0)) as (s' & Hs & _).
  - reflexivity.
  - reflexivity.
  - cbn. lia.
  - discriminate.
  - intros i p Hi Hp. in_list Hi. vm_compute in Hp.
    assert (p = mk_process PROCESS_READY 0 3 0 0) as -> by congruence.
    vm_compute. discriminate.
  - vm_compute in Hs. discriminate.
Qed.

(** ** Queue membership *)

(** C3, on the code: under round-robin the driver reaches a state where
    process 1 has just blocked on resource 0; each process is then in at
    most one queue.  The next [rr_schedule] appends the blocked process to
    the ready queue while it still sits in the wait queue. *)
Theorem rr_breaks_membership :
  run_driver rr_scheduler contention (initial 1) = Some blocked_current /\
  membership_ok blocked_current /\
  run_driver rr_scheduler (contention ++ [Dispatch]) (initial 1)
  = Some (mk_state (procs blocked_current) (Some 2%nat) [1%nat]
            [mk_resource (Some 2%nat) [1%nat]]) /\
  ~ membership_ok (mk_state (procs blocked_current) (Some 2%nat) [1%nat]
                     [mk_resource (Some 2%nat) [1%nat]]).
Proof.
  split; [vm_compute; reflexivity|].
  split; [by apply (bool_decide_unpack _)|].
  split; [vm_compute; reflexivity|].
  by apply (bool_decide_unpack _).
Qed.

(** The eviction of [pa_acquire] does the same to an owner that waits in
    the ready queue. *)
Lemma pa_acquire_breaks_membership :
  run_driver (pa_scheduler 64)
    [Fork 1 5 1; Dispatch; Acquire 0; Run; Fork 2 5 1; Dispatch; Acquire 0]
    (initial 1)
  = Some (mk_state
            (table [(1%nat, mk_process PROCESS_BLOCKED 1 5 1 1);
                    (2%nat, mk_process PROCESS_READY 0 5 2 1)])
            (Some 2%nat) [1%nat] [mk_resource (Some 2%nat) [1%nat]]).
Proof. vm_compute. reflexivity. Qed.

(** C4, on the code: the state where process 1 has just blocked is reached
    under round-robin and under STCF.  There [rr_schedule] appends the
    blocked process to the ready queue, and [stcf_schedule] takes it out
    of the wait queue and returns it, BLOCKED as it is. *)
Theorem blocked_current_is_rescheduled :
  run_driver rr_scheduler contention (initial 1) = Some blocked_current /\
  run_driver stcf_scheduler late_contention (initial 1) = Some blocked_current /\
  status <$> procs blocked_current !! 1%nat = Some PROCESS_BLOCKED /\
  rr_schedule blocked_current
  = Done (Some 2%nat)
      (mk_state (procs blocked_current) (Some 1%nat) [1%nat]
         [mk_resource (Some 2%nat) [1%nat]]) /\
  stcf_schedule blocked_current
  = Done (Some 1%nat)
      (mk_state (procs blocked_current) (Some 1%nat) [2%nat]
         [mk_resource (Some 2%nat) []]).
Proof. repeat split; vm_compute; reflexivity. Qed.

(** ** Priority + aging: the priority of the current process *)

(** C5, counterexample: the current process was aged to 5 from its
    original 3 and the ready queue is empty; [pa_schedule] lets it go on
    at priority 5. *)
Lemma pa_alone_keeps_aged_priority :
  ~ pa_resets_current 64 pa_alone /\
  pa_schedule 64 pa_alone = Done (Some 1%nat) pa_alone.
Proof.
  split; [|vm_compute; reflexivity].
  intros H.
  destruct (H 1%nat (mk_process PROCESS_RUNNING 1 4 5 3))
    as (next & s' & pc' & Hs & Hpc' & Hprio).
  - reflexivity.
  - reflexivity.
  - discriminate.
  - intros Hin. inversion Hin.
  - assert (pa_schedule 64 pa_alone = Done (Some 1%nat) pa_alone) as Hrun
      by (vm_compute; reflexivity).
    rewrite Hrun in Hs. injection Hs as <- <-.
    vm_compute in Hpc'. injection Hpc' as <-.
    vm_compute in Hprio. discriminate.
Qed.

(** ** Priority ceiling: acquire and release *)

(** C6: [pcp_acquire] on a free resource makes the current process the
    owner and writes [MAX_PRIO] into its priority; its status, age,
    lifespan and original priority stay.  [pcp_release] by the owner
    writes the original priority of the owner into its priority and frees
    the resource; when processes wait, all of them BLOCKED, the first one
    of the highest priority leaves the wait queue, has status READY and
    goes to the tail of the ready queue.  The records are written out
    field by field. *)
Theorem pcp_acquire_release MAX_PRIO s r x c pc :
  resources s !! r = Some x -> current s = Some c -> procs s !! c = Some pc ->
  (owner x = None ->
   pcp_acquire MAX_PRIO r s
   = Done true
       (mk_state
          (<[c := mk_process (status pc) (age pc) (lifespan pc) MAX_PRIO
                    (prio_orig pc)]> (procs s))
          (Some c) (readyqueue s)
          (<[r := mk_resource (Some c) (waitqueue x)]> (resources s)))) /\
  (owner x = Some c -> c ∉ waitqueue x ->
   (forall i, i ∈ waitqueue x ->
      exists p, procs s !! i = Some p /\ status p = PROCESS_BLOCKED) ->
   let restored :=
     <[c := mk_process (status pc) (age pc) (lifespan pc) (prio_orig pc)
              (prio_orig pc)]> (procs s) in
   let free := <[r := mk_resource None (waitqueue x)]> (resources s) in
   if list_empty (waitqueue x)
   then pcp_release r s = Done tt (mk_state restored (Some c) (readyqueue s) free)
   else exists w pw,
       first_max (procs s) prio (waitqueue x) w /\ procs s !! w = Some pw /\
       pcp_release r s
       = Done tt
           (mk_state
              (<[w := mk_process PROCESS_READY (age pw) (lifespan pw) (prio pw)
                        (prio_orig pw)]> restored)
              (Some c) (unlink w (readyqueue s) ++ [w])
              (unlink_resource w <$> free))).
Proof.
  intros Hr Hc Hpc. destruct s as [m cur rq rs]. cbn in *. subst cur.
  destruct x as [ow wq]. split.
  - cbn. intros ->. unfold pcp_acquire. munfold. mstep. reflexivity.
  - cbn. intros -> Hcw Hwq. unfold pcp_release. munfold. mstep.
    rewrite bool_decide_eq_true_2 by done. mstep.
    destruct wq as [|h wq']; [reflexivity|]. cbn [list_empty negb].
    set (wq := h :: wq') in *.
    scan_max.
    + discriminate.
    + intros i Hi. cbn. destruct (Hwq i Hi) as (p & Hp & _).
      rewrite lookup_insert_ne; [eauto|]. intros ->. contradiction.
    + cbn in Hmax. apply first_max_insert_notin in Hmax; [|exact Hcw].
      assert (w ∈ wq) as Hw by (eapply first_max_elem; eauto).
      destruct (Hwq w Hw) as (pw & Hpw & Hst).
      assert (c <> w) as Hne by (intros ->; contradiction).
      exists w, pw. split; [exact Hmax|]. split; [exact Hpw|].
      mstep. rewrite bool_decide_eq_true_2 by done. mstep. reflexivity.
Qed.

(** Process 1, of priority 2, takes the free resource and is at 64; and
    process 1, at the ceiling 64 with original priority 2, gives the
    resource back and is at 2 again, while process 3, the first waiter of
    priority 7, is READY and alone in the ready queue. *)
Lemma pcp_acquire_release_witness :
  pcp_acquire 64 0 pcp_free
  = Done true
      (mk_state
         (table [(1%nat, mk_process PROCESS_RUNNING 0 4 64 2);
                 (2%nat, mk_process PROCESS_READY 0 3 5 5)])
         (Some 1%nat) [2%nat] [mk_resource (Some 1%nat) []]) /\
  pcp_release 0 pcp_held
  = Done tt
      (mk_state
         (table [(1%nat, mk_process PROCESS_RUNNING 2 4 2 2);
                 (2%nat, mk_process PROCESS_BLOCKED 0 3 5 5);
                 (3%nat, mk_process PROCESS_READY 0 3 7 7);
                 (4%nat, mk_process PROCESS_BLOCKED 0 3 7 7)])
         (Some 1%nat) [3%nat] [mk_resource None [2%nat; 4%nat]]).
Proof.
  split.
  - exact (proj1 (pcp_acquire_release 64 pcp_free 0 (mk_resource None []) 1
                    (mk_process PROCESS_RUNNING 0 4 2 2) eq_refl eq_refl eq_refl)
             eq_refl).
  - destruct (proj2 (pcp_acquire_release 64 pcp_held 0
                       (mk_resource (Some 1%nat) [2%nat; 3%nat; 4%nat]) 1
                       (mk_process PROCESS_RUNNING 2 4 64 2) eq_refl eq_refl eq_refl)
                eq_refl) as (w & pw & Hmax & Hpw & Hrun).
    + cbn. intros Hi. in_list Hi; discriminate.
    + cbn. intros i Hi. in_list Hi; vm_compute; eauto.
    + assert (w = 3%nat) as ->.
      { destruct Hmax as (q1 & q2 & pw' & Hq & Hpw' & Hb & Ha).
        assert (pw' = pw) as -> by congruence. clear Hrun Hpw'.
        destruct q1 as [|a [|b [|d q1]]]; cbn in Hq; simplify_eq.
        - exfalso.
          assert (pw = mk_process PROCESS_BLOCKED 0 3 5 5) as ->
            by (vm_compute in Hpw; congruence).
          assert (7 <= 5) by (apply (Ha 3%nat (mk_process PROCESS_BLOCKED 0 3 7 7));
                              [now left | reflexivity]).
          lia.
        - reflexivity.
        - exfalso.
          assert (pw = mk_process PROCESS_BLOCKED 0 3 7 7) as ->
            by (vm_compute in Hpw; congruence).
          assert (7 < 7) by (apply (Hb 3%nat (mk_process PROCESS_BLOCKED 0 3 7 7));
                             [right; now left | reflexivity]).
          lia.
        - destruct q1; discriminate. }
      assert (pw = mk_process PROCESS_BLOCKED 0 3 7 7) as ->
        by (vm_compute in Hpw; congruence).
      rewrite Hrun. vm_compute. reflexivity.
Defined.

(** ** Priority inheritance: acquire of a held resource *)

(** C7: when the resource is held, [pip_acquire] raises the owner to the
    priority of the current process exactly when that priority is the
    greater one; in every case the current process becomes BLOCKED, goes
    to the tail of the wait queue of the resource, and the result is
    false. *)
Theorem pip_acquire_held s r x c o pc po :
  resources s !! r = Some x -> owner x = Some o -> current s = Some c ->
  procs s !! c = Some pc -> procs s !! o = Some po ->
  exists s', pip_acquire r s = Done false s' /\
    procs s' = <[c := set_status PROCESS_BLOCKED pc]>
                 (if prio po <? prio pc then <[o := set_prio (prio pc) po]> (procs s)
                  else procs s) /\
    resources s' !! r = Some (mk_resource (Some o) (unlink c (waitqueue x) ++ [c])) /\
    current s' = Some c /\ readyqueue s' = unlink c (readyqueue s).
Proof.
  intros Hr Ho Hc Hpc Hpo. destruct s as [m cur rq rs]. cbn in *. subst cur.
  destruct x as [ow wq]. cbn in Ho. subst ow.
  assert (r < length rs)%nat as Hlen by (eapply lookup_lt_Some; eauto).
  assert ((unlink_resource c <$> rs) !! r
          = Some (mk_resource (Some o) (unlink c wq))) as Hr'.
  { rewrite list_lookup_fmap, Hr. reflexivity. }
  unfold pip_acquire. munfold. mstep.
  destruct (prio po <? prio pc) eqn:E.
  - assert (o <> c) as Hne.
    { intros ->. assert (po = pc) by congruence. subst. apply Z.ltb_lt in E. lia. }
    mstep. eexists. split; [reflexivity|]. cbn. split; [reflexivity|].
    split; [|done].
    rewrite list_lookup_insert_eq; [done|]. now rewrite length_fmap.
  - mstep. eexists. split; [reflexivity|]. cbn. split; [reflexivity|].
    split; [|done].
    rewrite list_lookup_insert_eq; [done|]. now rewrite length_fmap.
Qed.

Lemma pip_acquire_held_witness :
  exists s', pip_acquire 0 pip_contention = Done false s' /\
    procs s' = table [(1%nat, mk_process PROCESS_READY 4 10 5 1);
                      (2%nat, mk_process PROCESS_BLOCKED 0 3 5 5)] /\
    resources s' !! 0%nat = Some (mk_resource (Some 1%nat) [2%nat]) /\
    current s' = Some 2%nat /\ readyqueue s' = [1%nat].
Proof.
  exact (pip_acquire_held pip_contention 0 (mk_resource (Some 1%nat) []) 2 1
           (mk_process PROCESS_RUNNING 0 3 5 5) (mk_process PROCESS_READY 4 10 1 1)
           eq_refl eq_refl eq_refl eq_refl eq_refl).
Defined.

(** ** The empty ready queue *)

(** C9: with an empty ready queue the schedule functions of Round-Robin,
    Priority, PCP and PIP read [current->age] without a test for NULL.
    With no current process the call is a NULL dereference; with one, it
    returns: the current process if it has ticks left, and none if not. *)
Theorem empty_readyqueue_needs_current MAX_PRIO pol s :
  pol ∈ [RR; PRIO; PCP; PIP] -> readyqueue s = [] ->
  (current s = None -> schedule (scheduler_of MAX_PRIO pol) s = Fault) /\
  (forall c pc, current s = Some c -> procs s !! c = Some pc ->
     schedule (scheduler_of MAX_PRIO pol) s
     = Done (if age pc <? lifespan pc then Some c else None) s).
Proof.
  intros Hpol Hrq. destruct s as [m cur rq rs]. cbn in *. subst rq.
  assert (pol = RR \/ pol = PRIO \/ pol = PCP \/ pol = PIP) as Hcases.
  { repeat (apply elem_of_cons in Hpol as [Hpol|Hpol]; [tauto|]). inversion Hpol. }
  split.
  - intros ->. destruct Hcases as [-> | [-> | [-> | ->]]]; reflexivity.
  - intros c pc -> Hpc.
    destruct Hcases as [-> | [-> | [-> | ->]]]; cbn;
      unfold rr_schedule, prio_schedule, pcp_schedule, pip_schedule; munfold; mstep;
      destruct (age pc <? lifespan pc); reflexivity.
Qed.

Lemma empty_readyqueue_needs_current_witness :
  schedule (scheduler_of 64 RR) idle = Fault /\
  schedule (scheduler_of 64 PIP) pa_alone = Done (Some 1%nat) pa_alone.
Proof.
  split.
  - exact (proj1 (empty_readyqueue_needs_current 64 RR idle
                    ltac:(now left) eq_refl) eq_refl).
  - exact (proj2 (empty_readyqueue_needs_current 64 PIP pa_alone
                    ltac:(do 3 right; now left) eq_refl)
             1%nat (mk_process PROCESS_RUNNING 1 4 5 3) eq_refl eq_refl).
Defined.

(** ** Release by a process that does not own the resource *)

(** Every release function but that of PCP tests the owner first: when
    the resource is not owned by the current process, the call stops in
    the assertion, in the state it was called in. *)
Lemma release_by_stranger_aborts MAX_PRIO pol s r x :
  pol <> PCP -> resources s !! r = Some x -> owner x <> current s ->
  release (scheduler_of MAX_PRIO pol) r s = Abort s.
Proof.
  intros Hpol Hr Hne. destruct s as [m cur rq rs]. cbn in *.
  destruct pol; try contradiction; cbn;
    unfold fcfs_release, prio_release, pa_release, pip_release; munfold; mstep;
    rewrite bool_decide_eq_false_2 by done; reflexivity.
Qed.

Lemma release_by_stranger_aborts_witness :
  release (scheduler_of 64 PIP) 0 release_by_stranger = Abort release_by_stranger.
Proof.
  apply (release_by_stranger_aborts 64 PIP release_by_stranger 0
           (mk_resource (Some 2%nat) [])).
  - discriminate.
  - reflexivity.
  - discriminate.
Defined.

(** C10, on the code: process 1 releases resource 0, which process 2 holds
    at the ceiling.  [pcp_release] has put process 2 back at its original
    priority 3 when it reaches the assertion; [pip_release], on the same
    state, stops with nothing written. *)
Theorem pcp_release_writes_before_assert :
  pcp_release 0 release_by_stranger
  = Abort (mk_state
             (table [(1%nat, mk_process PROCESS_RUNNING 1 4 2 2);
                     (2%nat, mk_process PROCESS_READY 1 5 3 3)])
             (Some 1%nat) [2%nat] [mk_resource (Some 2%nat) []]) /\
  pip_release 0 release_by_stranger = Abort release_by_stranger /\
  prio <$> procs release_by_stranger !! 2%nat = Some 64.
Proof. repeat split; vm_compute; reflexivity. Qed.

(** ** Priority + aging: the aging loop *)

Section Aging.

Variable MAX_PRIO : Z.

Lemma age_one_lookup m i j :
  age_one MAX_PRIO m i !! j
  = if decide (j = i) then aged MAX_PRIO <$> m !! i else m !! j.
Proof.
  unfold age_one, aged. destruct (m !! i) as [p|] eqn:Hi.
  - destruct (prio p <? MAX_PRIO) eqn:E; destruct (decide (j = i)) as [->|Hne].
    + rewrite lookup_insert_eq. cbn. now rewrite E.
    + now rewrite lookup_insert_ne.
    + rewrite Hi. cbn. now rewrite E.
    + reflexivity.
  - destruct (decide (j = i)) as [->|Hne]; [now rewrite Hi | reflexivity].
Qed.

Lemma age_queue_cons m h q :
  age_queue MAX_PRIO m (h :: q) = age_queue MAX_PRIO (age_one MAX_PRIO m h) q.
Proof. reflexivity. Qed.

Lemma age_queue_notin q : forall m i,
  i ∉ q -> age_queue MAX_PRIO m q !! i = m !! i.
Proof.
  induction q as [|h q IH]; intros m i Hi; [reflexivity|].
  rewrite age_queue_cons, IH.
  - rewrite age_one_lookup. case_decide; [|reflexivity].
    subst. exfalso. apply Hi. now left.
  - intros Hin. apply Hi. now right.
Qed.

Lemma age_queue_in q : forall m i,
  NoDup q -> i ∈ q -> age_queue MAX_PRIO m q !! i = aged MAX_PRIO <$> m !! i.
Proof.
  induction q as [|h q IH]; intros m i Hnd Hi; [inversion Hi|].
  apply NoDup_cons in Hnd as [Hh Hnd]. rewrite age_queue_cons.
  apply elem_of_cons in Hi as [->|Hi].
  - rewrite age_queue_notin by exact Hh. rewrite age_one_lookup.
    now rewrite decide_True.
  - rewrite IH by assumption. rewrite age_one_lookup.
    rewrite decide_False; [reflexivity|]. intros ->. contradiction.
Qed.

Lemma age_one_live m i q : live m q -> live (age_one MAX_PRIO m i) q.
Proof.
  intros Hl j Hj. rewrite age_one_lookup. destruct (Hl j Hj) as [p Hp].
  case_decide; subst; rewrite Hp; cbn; eauto.
Qed.

Lemma pa_scan_cons_None p q :
  pa_scan MAX_PRIO (p :: q) None = (pa_age MAX_PRIO p;; pa_scan MAX_PRIO q (Some p)).
Proof. reflexivity. Qed.

Lemma pa_scan_cons_Some p q n :
  pa_scan MAX_PRIO (p :: q) (Some n)
  = (pa_age MAX_PRIO p;;
     do pp <- load (Some p);
     do pn <- load (Some n);
     pa_scan MAX_PRIO q (if higher_prio pp pn then Some p else Some n)).
Proof. reflexivity. Qed.

Lemma pa_age_Some p pp s :
  procs s !! p = Some pp ->
  pa_age MAX_PRIO p s = Done tt (with_procs (age_one MAX_PRIO (procs s) p) s).
Proof.
  intros Hp. unfold pa_age, age_one. munfold. rewrite Hp. cbn.
  destruct (prio pp <? MAX_PRIO); cbn.
  - now rewrite Hp.
  - now destruct s.
Qed.

(** The loop leaves every process of the queue aged once, and returns the
    first process of the highest priority after the aging. *)
Lemma pa_scan_spec q : forall n s,
  live (procs s) (n :: q) -> NoDup (n :: q) ->
  exists w,
    pa_scan MAX_PRIO q (Some n) s
    = Done (Some w) (with_procs (age_queue MAX_PRIO (procs s) q) s)
    /\ first_max (age_queue MAX_PRIO (procs s) q) prio (n :: q) w.
Proof.
  induction q as [|p q IH]; intros n s Hl Hnd.
  - destruct (Hl n) as [pn Hn]; [now left|].
    exists n. split; [now destruct s|].
    exists [], [], pn. repeat split; [exact Hn | |]; intros i x Hi; inversion Hi.
  - destruct (Hl p) as [pp Hp]; [right; now left|].
    destruct (Hl n) as [pn Hn]; [now left|].
    apply NoDup_cons in Hnd as [Hnq Hnd].
    apply NoDup_cons in Hnd as [Hpq Hnd].
    assert (n <> p) as Hnp by (intros ->; apply Hnq; now left).
    assert (n ∉ q) as Hnq' by (intros Hin; apply Hnq; now right).
    rewrite pa_scan_cons_Some.
    rewrite (bind_Done _ _ _ _ _ (pa_age_Some _ _ _ Hp)).
    set (s1 := with_procs (age_one MAX_PRIO (procs s) p) s).
    assert (procs s1 !! p = Some (aged MAX_PRIO pp)) as Hp1.
    { cbn. rewrite age_one_lookup, decide_True, Hp; done. }
    assert (procs s1 !! n = Some pn) as Hn1.
    { cbn. now rewrite age_one_lookup, decide_False. }
    rewrite (bind_Done _ _ _ _ _ (load_Some _ _ _ Hp1)).
    rewrite (bind_Done _ _ _ _ _ (load_Some _ _ _ Hn1)).
    assert (live (procs s1) (n :: p :: q)) as Hl1 by now apply age_one_live.
    assert (forall i, i ∉ q ->
              age_queue MAX_PRIO (procs s) (p :: q) !! i = procs s1 !! i) as Hout.
    { intros i Hi. rewrite age_queue_cons. now apply age_queue_notin. }
    rewrite higher_prio_key.
    destruct (Z.ltb_spec (prio pn) (prio (aged MAX_PRIO pp))) as [Hlt|Hge].
    + destruct (IH p s1) as (w & Hw & q1 & q2 & pw & Hq & Hpw & Hb & Ha).
      { intros i Hi. apply Hl1. now right. }
      { now apply NoDup_cons. }
      exists w. split; [exact Hw|].
      exists (n :: q1), q2, pw. split; [cbn; now rewrite Hq|].
      split; [exact Hpw|]. split; [|exact Ha].
      intros i x Hi Hx. apply elem_of_cons in Hi as [->|Hi]; [|now apply (Hb i)].
      rewrite (Hout n Hnq'), Hn1 in Hx. assert (x = pn) as -> by congruence.
      destruct q1 as [|p' q1].
      * cbn in Hq. assert (w = p) as -> by congruence.
        change (age_queue MAX_PRIO (procs s1) q !! p = Some pw) in Hpw.
        rewrite (age_queue_notin q _ p Hpq), Hp1 in Hpw.
        assert (pw = aged MAX_PRIO pp) as -> by congruence. exact Hlt.
      * cbn in Hq. assert (p' = p) as -> by congruence.
        etrans; [exact Hlt|]. apply (Hb p); [now left|].
        change (age_queue MAX_PRIO (procs s1) q !! p = Some (aged MAX_PRIO pp)).
        now rewrite (age_queue_notin q _ p Hpq).
    + destruct (IH n s1) as (w & Hw & q1 & q2 & pw & Hq & Hpw & Hb & Ha).
      { intros i Hi. apply Hl1. apply elem_of_cons in Hi as [->|Hi]; [now left|].
        right. now right. }
      { now apply NoDup_cons. }
      exists w. split; [exact Hw|].
      assert (age_queue MAX_PRIO (procs s) (p :: q) !! p = Some (aged MAX_PRIO pp))
        as HFp by (rewrite (Hout p Hpq); exact Hp1).
      assert (age_queue MAX_PRIO (procs s) (p :: q) !! n = Some pn)
        as HFn by (rewrite (Hout n Hnq'); exact Hn1).
      destruct q1 as [|n' q1].
      * cbn in Hq. assert (w = n) as -> by congruence.
        assert (q2 = q) as -> by congruence.
        exists [], (p :: q), pn. repeat split; [exact HFn | |].
        -- intros i x Hi. inversion Hi.
        -- intros i x Hi Hx. apply elem_of_cons in Hi as [->|Hi].
           ++ assert (x = aged MAX_PRIO pp) as -> by congruence. exact Hge.
           ++ assert (pw = pn) as <-.
              { rewrite age_queue_cons in HFn. unfold s1 in Hpw.
                cbn [procs with_procs] in Hpw. congruence. }
              now apply (Ha i).
      * cbn in Hq. assert (n' = n) as -> by congruence.
        assert (q = q1 ++ w :: q2) as Hq' by congruence.
        exists (n :: p :: q1), q2, pw. split; [cbn; now rewrite Hq'|].
        split; [exact Hpw|]. split; [|exact Ha].
        intros i x Hi Hx. apply elem_of_cons in Hi as [->|Hi].
        -- apply (Hb n); [now left | exact Hx].
        -- apply elem_of_cons in Hi as [->|Hi].
           ++ assert (x = aged MAX_PRIO pp) as -> by congruence.
              eapply Z.le_lt_trans; [exact Hge|]. apply (Hb n); [now left | exact HFn].
           ++ apply (Hb i); [now right | exact Hx].
Qed.

Lemma pa_scan_None_spec q s :
  q <> [] -> live (procs s) q -> NoDup q ->
  exists w,
    pa_scan MAX_PRIO q None s
    = Done (Some w) (with_procs (age_queue MAX_PRIO (procs s) q) s)
    /\ first_max (age_queue MAX_PRIO (procs s) q) prio q w.
Proof.
  destruct q as [|h q]; [congruence|]. intros _ Hl Hnd.
  destruct (Hl h) as [ph Hh]; [now left|].
  rewrite pa_scan_cons_None.
  rewrite (bind_Done _ _ _ _ _ (pa_age_Some _ _ _ Hh)).
  destruct (pa_scan_spec q h (with_procs (age_one MAX_PRIO (procs s) h) s))
    as (w & Hw & Hmax).
  - now apply age_one_live.
  - exact Hnd.
  - exists w. split; [exact Hw | exact Hmax].
Qed.

End Aging.

(** On priorities that fit a C [unsigned int], one round of aging is plus
    one, capped at [MAX_PRIO]. *)
Lemma aged_plus_one MAX_PRIO p :
  0 <= prio p -> MAX_PRIO < 2 ^ 32 ->
  aged MAX_PRIO p
  = set_prio (if prio p <? MAX_PRIO then prio p + 1 else prio p) p.
Proof.
  intros H0 Hmax. unfold aged. destruct (Z.ltb_spec (prio p) MAX_PRIO) as [Hlt|Hge].
  - unfold u32. rewrite Z.mod_small by lia. reflexivity.
  - now destruct p.
Qed.

(** C5, amended: the current process exists, is not blocked and is in no
    queue, and every process is in at most one queue.  When the ready
    queue is not empty, [pa_schedule] puts the current process back at
    its original priority, adds one to the priority of every process of
    the ready queue that is below [MAX_PRIO], and looks for the first
    ready process of the highest priority after that.  An unfinished
    current process of a greater priority goes on; otherwise the process
    found is taken from the ready queue and returned, an unfinished
    current process going to the tail of the ready queue.  When the ready
    queue is empty nothing is written: the current process keeps the
    priority it has, and is returned if it has ticks left. *)
Theorem pa_schedule_ages MAX_PRIO s c pc :
  current s = Some c -> procs s !! c = Some pc ->
  status pc <> PROCESS_BLOCKED ->
  live (procs s) (readyqueue s) -> membership_ok s -> c ∉ queued s ->
  if list_empty (readyqueue s)
  then pa_schedule MAX_PRIO s
       = Done (if age pc <? lifespan pc then Some c else None) s
  else
    let m1 := age_queue MAX_PRIO (<[c := set_prio (prio_orig pc) pc]> (procs s))
                (readyqueue s) in
    m1 !! c = Some (mk_process (status pc) (age pc) (lifespan pc) (prio_orig pc)
                      (prio_orig pc)) /\
    (forall i p, i ∈ readyqueue s -> procs s !! i = Some p ->
       0 <= prio p -> MAX_PRIO < 2 ^ 32 ->
       m1 !! i = Some (mk_process (status p) (age p) (lifespan p)
                         (if prio p <? MAX_PRIO then prio p + 1 else prio p)
                         (prio_orig p))) /\
    (forall i, i <> c -> i ∉ readyqueue s -> m1 !! i = procs s !! i) /\
    exists w pw,
      first_max m1 prio (readyqueue s) w /\ m1 !! w = Some pw /\
      pa_schedule MAX_PRIO s
      = if age pc <? lifespan pc then
          if prio pw <? prio_orig pc then Done (Some c) (with_procs m1 s)
          else Done (Some w)
                 (mk_state m1 (Some c) (unlink w (readyqueue s) ++ [c])
                    (resources s))
        else Done (Some w)
               (mk_state m1 (Some c) (unlink w (readyqueue s)) (resources s)).
Proof.
  intros Hc Hpc Hst Hl Hm Hcq.
  pose proof (membership_ready s Hm) as Hnd.
  assert (forall w, w ∈ readyqueue s -> unlink_resource w <$> resources s = resources s)
    as Hres.
  { intros w Hw. apply unlink_resources_notin. now apply (ready_not_waiting s w Hm). }
  apply not_queued in Hcq as [Hcq _]. clear Hm.
  destruct s as [m cur rq rs].
  cbn [procs current readyqueue resources] in *. subst cur.
  destruct rq as [|h rq'].
  { cbn [list_empty]. unfold pa_schedule, pa_pick_next. munfold. mstep.
    rewrite bool_decide_eq_false_2 by exact Hst. mstep.
    destruct (age pc <? lifespan pc); reflexivity. }
  cbn [list_empty]. set (rq := h :: rq') in *.
  set (m0 := <[c := set_prio (prio_orig pc) pc]> m) in *.
  set (m1 := age_queue MAX_PRIO m0 rq) in *.
  assert (m1 !! c = Some (set_prio (prio_orig pc) pc)) as Hc1.
  { unfold m1. rewrite age_queue_notin by exact Hcq. unfold m0.
    now rewrite lookup_insert_eq. }
  assert (forall i, i ∈ rq -> m0 !! i = m !! i) as Hm0.
  { intros i Hi. unfold m0. rewrite lookup_insert_ne; [reflexivity|].
    intros ->. contradiction. }
  split; [exact Hc1|]. split; [|split].
  - intros i p Hi Hp H0 Hmax. unfold m1.
    rewrite age_queue_in by assumption. rewrite (Hm0 i Hi), Hp. cbn.
    now rewrite aged_plus_one.
  - intros i Hic Hiq. unfold m1. rewrite age_queue_notin by exact Hiq.
    unfold m0. now rewrite lookup_insert_ne.
  - unfold pa_schedule. munfold. mstep.
    rewrite bool_decide_eq_false_2 by exact Hst. cbn.
    unfold rq at 1. cbn [list_empty negb]. mstep. fold m0.
    destruct (pa_scan_None_spec MAX_PRIO rq (mk_state m0 (Some c) rq rs))
      as (w & Hscan & Hmax).
    + discriminate.
    + intros i Hi. cbn. rewrite (Hm0 i Hi). now apply Hl.
    + exact Hnd.
    + cbn [procs] in Hscan, Hmax. fold m1 in Hscan, Hmax. rewrite Hscan.
      assert (w ∈ rq) as Hw by (eapply first_max_elem; eauto).
      assert (w <> c) as Hwc by (intros ->; contradiction).
      destruct Hmax as (q1 & q2 & pw & Hq & Hpw & Hb & Ha).
      exists w, pw. split; [now exists q1, q2, pw|]. split; [exact Hpw|].
      unfold with_procs. mstep.
      destruct (age pc <? lifespan pc); mstep.
      * destruct (prio pw <? prio_orig pc); mstep; [reflexivity|].
        change (h :: rq' ++ [c]) with (rq ++ [c]).
        rewrite (Hres w Hw), unlink_app, (unlink_cons_ne w c []) by congruence.
        reflexivity.
      * rewrite (Hres w Hw). reflexivity.
Qed.

(** With three processes ready, and alone. *)
Lemma pa_schedule_ages_witness :
  (exists w pw m1,
     first_max m1 prio [2%nat; 3%nat; 4%nat] w /\ m1 !! w = Some pw /\
     m1 !! 1%nat = Some (mk_process PROCESS_RUNNING 1 4 3 3) /\
     m1 !! 2%nat = Some (mk_process PROCESS_READY 0 3 3 2) /\
     pa_schedule 64 pa_competing
     = if prio pw <? 3 then Done (Some 1%nat) (with_procs m1 pa_competing)
       else Done (Some w)
              (mk_state m1 (Some 1%nat) (unlink w [2%nat; 3%nat; 4%nat] ++ [1%nat])
                 [])) /\
  pa_schedule 64 pa_alone = Done (Some 1%nat) pa_alone.
Proof.
  split.
  - destruct (pa_schedule_ages 64 pa_competing 1 (mk_process PROCESS_RUNNING 1 4 5 3))
      as (Hc & Hq & _ & w & pw & Hmax & Hpw & Hrun).
    + reflexivity.
    + reflexivity.
    + discriminate.
    + intros i Hi. in_list Hi; vm_compute; eauto.
    + by apply (bool_decide_unpack _).
    + by apply (bool_decide_unpack _).
    + exists w, pw. eexists. split; [exact Hmax|]. split; [exact Hpw|].
      split; [exact Hc|]. split; [|exact Hrun].
      apply (Hq 2%nat (mk_process PROCESS_READY 0 3 2 2)).
      * now left.
      * reflexivity.
      * cbn. lia.
      * lia.
  - exact (pa_schedule_ages 64 pa_alone 1 (mk_process PROCESS_RUNNING 1 4 5 3)
             eq_refl eq_refl ltac:(discriminate)
             ltac:(intros i Hi; inversion Hi)
             ltac:(by apply (bool_decide_unpack _))
             ltac:(by apply (bool_decide_unpack _))).
Defined.

(** ** Ages, completion and the queues *)

Lemma elem_of_waitqueues s j :
  j ∈ waitqueues s <-> exists r x, resources s !! r = Some x /\ j ∈ waitqueue x.
Proof.
  unfold waitqueues. induction (resources s) as [|y rs IH]; cbn.
  - split; [intros H; inversion H | intros (r & x & H & _); inversion H].
  - rewrite elem_of_app, IH. split.
    + intros [H|(r & x & Hr & Hx)].
      * exists 0%nat, y. now split.
      * exists (S r), x. now split.
    + intros (r & x & Hr & Hx). destruct r as [|r]; cbn in Hr.
      * left. congruence.
      * right. eauto.
Qed.

Lemma unfinished_life m m' i :
  life m' i = life m i -> unfinished m i -> unfinished m' i.
Proof.
  unfold life, unfinished. intros Hlife (p & Hp & Hlt).
  rewrite Hp in Hlife. cbn in Hlife.
  destruct (m' !! i) as [p'|]; [|discriminate].
  cbn in Hlife. exists p'. split; [reflexivity|].
  assert (age p' = age p /\ lifespan p' = lifespan p) as [-> ->] by (split; congruence).
  exact Hlt.
Qed.

Lemma effect_refl P s : effect P s s.
Proof.
  split; [reflexivity | | reflexivity | intros o Ho; now left].
  intros i Hi. now left.
Qed.

(** The invariant survives what the operations may do. *)
Lemma sound_effect P s s' :
  (forall o, P o -> current s = Some o) ->
  sound s -> effect P s s' -> sound s'.
Proof.
  intros HP [Hages Hq Hcur Hown] [Hlife Hqueued Hc Howners].
  assert (forall i, unfinished (procs s) i -> unfinished (procs s') i) as Hunf.
  { intros i. apply unfinished_life, Hlife. }
  split.
  - intros i p' Hp'. specialize (Hlife i). unfold life in Hlife.
    rewrite Hp' in Hlife. cbn in Hlife.
    destruct (procs s !! i) as [p|] eqn:Hp; [|discriminate]. cbn in Hlife.
    assert (age p' = age p /\ lifespan p' = lifespan p) as [-> ->] by (split; congruence).
    now apply (Hages i).
  - intros i Hi. apply Hunf. destruct (Hqueued i Hi) as [Hin|Hu]; [now apply Hq | exact Hu].
  - intros c Hcs. rewrite Hc in Hcs. destruct (Hcur c Hcs) as [p Hp].
    specialize (Hlife c). unfold life in Hlife. rewrite Hp in Hlife.
    destruct (procs s' !! c); [eauto | discriminate].
  - intros o Ho. rewrite Hc. destruct (Howners o Ho) as [Hs|Hpo].
    + destruct (Hown o Hs) as [?|?]; [now left | right; auto].
    + left. auto.
Qed.

Lemma unfinishedb_unfinished m i : unfinishedb m i = true -> unfinished m i.
Proof.
  unfold unfinishedb, unfinished. destruct (m !! i) as [p|]; [|discriminate].
  intros H. apply Z.ltb_lt in H. eauto.
Qed.

Lemma soundb_sound s : soundb s = true -> sound s.
Proof.
  unfold soundb. intros H.
  apply andb_true_iff in H as [H Hown]. apply andb_true_iff in H as [H Hcur].
  apply andb_true_iff in H as [Hages Hq]. apply bool_decide_eq_true_1 in Hages.
  rewrite forallb_forall in Hq, Hown. split.
  - intros i p Hp. now apply (Hages i p).
  - intros i Hi. apply unfinishedb_unfinished, Hq. now apply list_elem_of_In.
  - intros c Hc. rewrite Hc in Hcur. now apply bool_decide_eq_true_1 in Hcur.
  - intros o (r & x & Hr & Ho).
    apply list_elem_of_lookup_2, list_elem_of_In in Hr. specialize (Hown x Hr).
    rewrite Ho in Hown. apply orb_true_iff in Hown as [Hc|Hu].
    + left. now apply bool_decide_eq_true_1 in Hc.
    + right. now apply unfinishedb_unfinished.
Qed.

Lemma sound_settled s : sound s -> settled s.
Proof. intros [Hages Hq _ _]. now split. Qed.


(** *** What the primitives do *)

Lemma bind_inv {A B : Type} (m : M A) (k : A -> M B) s b s' :
  bind m k s = Done b s' -> exists a s1, m s = Done a s1 /\ k a s1 = Done b s'.
Proof. unfold bind. destruct (m s) as [a s1| |]; [eauto | discriminate..]. Qed.

Lemma ret_inv {A : Type} (v : A) s a s' : ret v s = Done a s' -> a = v /\ s' = s.
Proof. unfold ret. intros H. injection H as <- <-. now split. Qed.

Lemma assert_inv b s a s' : assert b s = Done a s' -> b = true /\ s' = s.
Proof. unfold assert. destruct b; [|discriminate]. intros H. injection H as _ <-. now split. Qed.

Lemma get_current_inv s a s' : get_current s = Done a s' -> a = current s /\ s' = s.
Proof. unfold get_current. intros H. injection H as <- <-. now split. Qed.

Lemma get_readyqueue_inv s a s' :
  get_readyqueue s = Done a s' -> a = readyqueue s /\ s' = s.
Proof. unfold get_readyqueue. intros H. injection H as <- <-. now split. Qed.

Lemma get_resource_inv r s a s' :
  get_resource r s = Done a s' -> resources s !! r = Some a /\ s' = s.
Proof.
  unfold get_resource. destruct (resources s !! r); [|discriminate].
  intros H. injection H as <- <-. now split.
Qed.

Lemma load_inv p s a s' :
  load p s = Done a s' -> (exists i, p = Some i /\ procs s !! i = Some a) /\ s' = s.
Proof.
  unfold load. destruct p as [i|]; [|discriminate].
  destruct (procs s !! i) eqn:Hi; [|discriminate].
  intros H. injection H as <- <-. split; [eauto | reflexivity].
Qed.

Lemma scan_inv better q : forall next s r s',
  scan better q next s = Done r s' ->
  (r = next \/ exists w, r = Some w /\ w ∈ q) /\ s' = s.
Proof.
  induction q as [|p q IH]; intros next s r s' H.
  - rewrite scan_nil in H. apply ret_inv in H as [-> ->]. split; [now left | reflexivity].
  - destruct next as [n|].
    + rewrite scan_cons_Some in H.
      apply bind_inv in H as (pp & s1 & H1 & H). apply load_inv in H1 as [_ ->].
      apply bind_inv in H as (pn & s1 & H1 & H). apply load_inv in H1 as [_ ->].
      apply IH in H as [[->|(w & -> & Hw)] ->]; (split; [|reflexivity]).
      * destruct (better pp pn); [right; exists p; split; [reflexivity | now left] | now left].
      * right. exists w. split; [reflexivity | now right].
    + rewrite scan_cons_None in H.
      apply IH in H as [[->|(w & -> & Hw)] ->]; (split; [|reflexivity]).
      * right. exists p. split; [reflexivity | now left].
      * right. exists w. split; [reflexivity | now right].
Qed.

Section Effects.

Variable P : pid -> Prop.
Variable s0 : state.

Lemma keeps_life_status v : keeps_life (set_status v).
Proof. now intros x. Qed.

Lemma keeps_life_prio v : keeps_life (set_prio v).
Proof. now intros x. Qed.

Lemma store_effect p f s a s' :
  keeps_life f -> effect P s0 s -> store p f s = Done a s' -> effect P s0 s'.
Proof.
  intros Hf [H1 H2 H3 H4]. unfold store. destruct p as [i|]; [|discriminate].
  destruct (procs s !! i) as [x|] eqn:Hi; [|discriminate].
  intros H. injection H as _ <-. split; cbn; [|exact H2 | exact H3 | exact H4].
  intros j. rewrite <- (H1 j). unfold life. destruct (decide (j = i)) as [->|Hne].
  - rewrite lookup_insert_eq, Hi. cbn. destruct (Hf x) as [-> ->]. reflexivity.
  - now rewrite lookup_insert_ne.
Qed.

Lemma list_del_init_effect p s a s' :
  effect P s0 s -> list_del_init p s = Done a s' -> effect P s0 s'.
Proof.
  intros [H1 H2 H3 H4]. unfold list_del_init. destruct p as [i|]; [|discriminate].
  destruct (procs s !! i) as [x|] eqn:Hi; [|discriminate].
  intros H. injection H as _ <-. split; cbn; [exact H1 | | exact H3 |].
  - intros j Hj. apply H2. unfold queued in *. cbn in Hj.
    apply elem_of_app in Hj as [Hj|Hj]; apply elem_of_app.
    + left. now apply elem_of_unlink in Hj as [_ Hj].
    + right. apply elem_of_waitqueues in Hj as (r & x' & Hr & Hj). cbn in Hr.
      rewrite list_lookup_fmap in Hr.
      destruct (resources s !! r) as [y|] eqn:Hy; [|discriminate].
      cbn in Hr. injection Hr as <-. cbn in Hj.
      apply elem_of_unlink in Hj as [_ Hj].
      apply elem_of_waitqueues. eauto.
  - intros o (r & x' & Hr & Ho). apply H4. cbn in Hr.
    rewrite list_lookup_fmap in Hr.
    destruct (resources s !! r) as [y|] eqn:Hy; [|discriminate].
    cbn in Hr. injection Hr as <-. cbn in Ho. exists r, y. now split.
Qed.

Lemma readyqueue_add_tail_effect p s a s' :
  (forall i, p = Some i -> admissible s0 i) -> effect P s0 s ->
  readyqueue_add_tail p s = Done a s' -> effect P s0 s'.
Proof.
  intros Hi [H1 H2 H3 H4]. unfold readyqueue_add_tail.
  destruct p as [i|]; [|discriminate]. specialize (Hi i eq_refl).
  destruct (procs s !! i) as [x|]; [|discriminate].
  intros H. injection H as _ <-. split; cbn; [exact H1 | | exact H3 | exact H4].
  intros j Hj. unfold queued in *. cbn in Hj.
  rewrite <- app_assoc in Hj. apply elem_of_app in Hj as [Hj|Hj].
  - apply H2. apply elem_of_app. now left.
  - apply elem_of_cons in Hj as [->|Hj]; [exact Hi|].
    apply H2. apply elem_of_app. now right.
Qed.

Lemma waitqueue_add_tail_effect p r s a s' :
  (forall i, p = Some i -> admissible s0 i) -> effect P s0 s ->
  waitqueue_add_tail p r s = Done a s' -> effect P s0 s'.
Proof.
  intros Hi [H1 H2 H3 H4]. unfold waitqueue_add_tail.
  destruct p as [i|]; [|discriminate]. specialize (Hi i eq_refl).
  destruct (procs s !! i) as [x|]; [|discriminate].
  destruct (resources s !! r) as [y|] eqn:Hy; [|discriminate].
  intros H. injection H as _ <-. split; cbn; [exact H1 | | exact H3 |].
  - intros j Hj. unfold queued in *. cbn in Hj.
    apply elem_of_app in Hj as [Hj|Hj].
    + apply H2. apply elem_of_app. now left.
    + apply elem_of_waitqueues in Hj as (r' & x' & Hr & Hj). cbn in Hr.
      apply list_lookup_insert_Some in Hr as [(-> & <- & _)|(Hne & Hr)].
      * cbn in Hj. apply elem_of_app in Hj as [Hj|Hj].
        -- apply H2. apply elem_of_app. right. apply elem_of_waitqueues. eauto.
        -- apply elem_of_cons in Hj as [->|Hj]; [exact Hi | inversion Hj].
      * apply H2. apply elem_of_app. right. apply elem_of_waitqueues. eauto.
  - intros o (r' & x' & Hr & Ho). apply H4. cbn in Hr.
    apply list_lookup_insert_Some in Hr as [(-> & <- & _)|(Hne & Hr)].
    + cbn in Ho. exists r', y. now split.
    + exists r', x'. now split.
Qed.

Lemma set_owner_effect r o s a s' :
  (forall i, o = Some i -> P i) -> effect P s0 s ->
  set_owner r o s = Done a s' -> effect P s0 s'.
Proof.
  intros Ho [H1 H2 H3 H4]. unfold set_owner. intros H.
  apply bind_inv in H as (y & s1 & Hy & H). apply get_resource_inv in Hy as [Hy ->].
  unfold put_resource in H. injection H as _ <-.
  split; cbn; [exact H1 | | exact H3 |].
  - intros j Hj. apply H2. unfold queued in *. cbn in Hj.
    apply elem_of_app in Hj as [Hj|Hj]; apply elem_of_app; [now left|right].
    apply elem_of_waitqueues in Hj as (r' & x' & Hr & Hj). cbn in Hr.
    apply elem_of_waitqueues.
    apply list_lookup_insert_Some in Hr as [(-> & <- & _)|(Hne & Hr)]; eauto.
  - intros i (r' & x' & Hr & Hi). cbn in Hr.
    apply list_lookup_insert_Some in Hr as [(-> & <- & _)|(Hne & Hr)].
    + right. apply Ho. exact Hi.
    + apply H4. exists r', x'. now split.
Qed.

(** A record read in a later state tells the age and the lifespan the
    process has in [s0]. *)
Lemma life_back s i c :
  effect P s0 s -> procs s !! i = Some c ->
  exists c0, procs s0 !! i = Some c0 /\ age c0 = age c /\ lifespan c0 = lifespan c.
Proof.
  intros [H1 _ _ _] Hc. specialize (H1 i). unfold life in H1. rewrite Hc in H1.
  destruct (procs s0 !! i) as [c0|]; [|discriminate]. cbn in H1.
  exists c0. repeat split; congruence.
Qed.

Lemma unfinished_back s i c :
  effect P s0 s -> procs s !! i = Some c -> age c < lifespan c ->
  unfinished (procs s0) i.
Proof.
  intros Heff Hc Hlt. destruct (life_back s i c Heff Hc) as (c0 & Hc0 & Ha & Hl).
  exists c0. split; [exact Hc0 | lia].
Qed.

Lemma unfinished_back_ne s i c :
  settled s0 -> effect P s0 s -> procs s !! i = Some c -> lifespan c <> age c ->
  unfinished (procs s0) i.
Proof.
  intros Hs Heff Hc Hne. destruct (life_back s i c Heff Hc) as (c0 & Hc0 & Ha & Hl).
  exists c0. split; [exact Hc0|]. pose proof (settled_ages s0 Hs i c0 Hc0). lia.
Qed.

End Effects.

(** In a side condition the rest of the run is of no use. *)
Ltac side_goal :=
  repeat match goal with
  | H : _ = Done _ _ |- _ => clear H
  end.

(** One step of an operation that returned: the hypothesis that says so is
    taken apart, and the effect so far is carried to the next state. *)
Ltac mexec_step :=
  match goal with
  | H : bind _ _ _ = Done _ _ |- _ =>
      let a := fresh "a" in
      let s1 := fresh "s" in
      let Hm := fresh "Hm" in
      apply bind_inv in H as (a & s1 & Hm & H); cbv beta zeta in H
  | H : ret _ _ = Done _ _ |- _ => apply ret_inv in H as [? ?]; subst
  | H : assert _ _ = Done _ _ |- _ => apply assert_inv in H as [? ?]; subst
  | H : get_current _ = Done _ _ |- _ => apply get_current_inv in H as [? ?]; subst
  | H : get_readyqueue _ = Done _ _ |- _ => apply get_readyqueue_inv in H as [? ?]; subst
  | H : get_resource _ _ = Done _ _ |- _ => apply get_resource_inv in H as [? ?]; subst
  | H : load _ _ = Done _ _ |- _ =>
      let i := fresh "i" in
      let Hi := fresh "Hi" in
      apply load_inv in H as [(i & ? & Hi) ?]; subst
  | H : scan _ _ _ _ = Done _ _ |- _ =>
      let w := fresh "w" in
      let Hw := fresh "Hw" in
      apply scan_inv in H as [[?|(w & ? & Hw)] ?]; subst
  | Heff : effect _ _ ?s, H : store _ _ ?s = Done _ _ |- _ =>
      first [ apply (store_effect _ _ _ _ _ _ _ (keeps_life_status _) Heff) in H
            | apply (store_effect _ _ _ _ _ _ _ (keeps_life_prio _) Heff) in H ]
  | Heff : effect _ _ ?s, H : list_del_init _ ?s = Done _ _ |- _ =>
      apply (list_del_init_effect _ _ _ _ _ _ Heff) in H
  | Heff : effect ?P ?s0 ?s, H : readyqueue_add_tail ?p ?s = Done ?a ?s' |- _ =>
      let Hadm := fresh "Hadm" in
      assert (forall i, p = Some i -> admissible s0 i) as Hadm;
      [ side_goal
      | apply (readyqueue_add_tail_effect P s0 p s a s' Hadm Heff) in H; clear Hadm ]
  | Heff : effect ?P ?s0 ?s, H : waitqueue_add_tail ?p ?r ?s = Done ?a ?s' |- _ =>
      let Hadm := fresh "Hadm" in
      assert (forall i, p = Some i -> admissible s0 i) as Hadm;
      [ side_goal
      | apply (waitqueue_add_tail_effect P s0 p r s a s' Hadm Heff) in H; clear Hadm ]
  | Heff : effect ?P ?s0 ?s, H : set_owner ?r ?o ?s = Done ?a ?s' |- _ =>
      let Ho := fresh "Ho" in
      assert (forall i, o = Some i -> P i) as Ho;
      [ side_goal
      | apply (set_owner_effect P s0 r o s a s' Ho Heff) in H; clear Ho ]
  | H : (if ?b then _ else _) _ = Done _ _ |- _ => destruct b eqn:?
  | H : Fault = Done _ _ |- _ => discriminate H
  end.

Ltac mexec := repeat mexec_step.

(** *** What [schedule] does *)

Lemma head_elem (q : list pid) i : head q = Some i -> i ∈ q.
Proof. destruct q; [discriminate|]. cbn. intros [= ->]. now left. Qed.

(** Tests of the code, as facts on integers. *)
Ltac tests :=
  repeat match goal with
  | H : (_ <? _) = true |- _ => apply Z.ltb_lt in H
  | H : (_ <? _) = false |- _ => apply Z.ltb_ge in H
  | H : (_ <=? _) = true |- _ => apply Z.leb_le in H
  | H : (_ <=? _) = false |- _ => apply Z.leb_gt in H
  | H : (_ =? _) = true |- _ => apply Z.eqb_eq in H
  | H : (_ =? _) = false |- _ => apply Z.eqb_neq in H
  | H : negb _ = true |- _ => apply negb_true_iff in H
  | H : negb _ = false |- _ => apply negb_false_iff in H
  end.

(** The process has ticks left in the state the operation started in:
    it was in the ready queue there, or it is a process whose record the
    operation read and tested. *)
Ltac has_ticks Hs :=
  tests; simplify_eq;
  first
    [ apply (settled_queues _ Hs), elem_of_app; left;
      first [ assumption | now apply head_elem ]
    | match goal with
      | Hi : procs ?sk !! ?i = Some ?c, Heff : effect _ _ ?sk |- unfinished _ ?i =>
          first [ apply (unfinished_back _ _ _ _ _ Heff Hi); lia
                | apply (unfinished_back_ne _ _ _ _ _ Hs Heff Hi); lia ]
      end ].

(** A process about to be queued is admissible. *)
Ltac may_queue Hs :=
  let i := fresh "i" in
  let Hi := fresh "Hi" in
  intros i Hi; right; has_ticks Hs.

Ltac schedule_done Hs H :=
  mexec; try may_queue Hs;
  (split; [eassumption|]);
  let j := fresh "j" in
  let Hj := fresh "Hj" in
  intros j Hj; try discriminate; has_ticks Hs.

Lemma fcfs_schedule_effect s n s' :
  settled s -> fcfs_schedule s = Done n s' ->
  effect (fun _ => False) s s' /\ forall i, n = Some i -> unfinished (procs s) i.
Proof.
  intros Hs H. pose proof (effect_refl (fun _ => False) s) as Heff.
  unfold fcfs_schedule, fcfs_pick_next, absent_or_blocked, list_first_entry in H.
  schedule_done Hs H.
Qed.

Lemma sjf_schedule_effect s n s' :
  settled s -> sjf_schedule s = Done n s' ->
  effect (fun _ => False) s s' /\ forall i, n = Some i -> unfinished (procs s) i.
Proof.
  intros Hs H. pose proof (effect_refl (fun _ => False) s) as Heff.
  unfold sjf_schedule, sjf_pick_next, absent_or_blocked in H.
  schedule_done Hs H.
Qed.

Lemma stcf_schedule_effect s n s' :
  settled s -> stcf_schedule s = Done n s' ->
  effect (fun _ => False) s s' /\ forall i, n = Some i -> unfinished (procs s) i.
Proof.
  intros Hs H. pose proof (effect_refl (fun _ => False) s) as Heff.
  unfold stcf_schedule in H.
  schedule_done Hs H.
Qed.

Lemma rr_schedule_effect s n s' :
  settled s -> rr_schedule s = Done n s' ->
  effect (fun _ => False) s s' /\ forall i, n = Some i -> unfinished (procs s) i.
Proof.
  intros Hs H. pose proof (effect_refl (fun _ => False) s) as Heff.
  unfold rr_schedule, list_first_entry in H.
  schedule_done Hs H.
Qed.

Lemma prio_schedule_effect s n s' :
  settled s -> prio_schedule s = Done n s' ->
  effect (fun _ => False) s s' /\ forall i, n = Some i -> unfinished (procs s) i.
Proof.
  intros Hs H. pose proof (effect_refl (fun _ => False) s) as Heff.
  unfold prio_schedule in H.
  schedule_done Hs H.
Qed.

Lemma pcp_schedule_effect s n s' :
  settled s -> pcp_schedule s = Done n s' ->
  effect (fun _ => False) s s' /\ forall i, n = Some i -> unfinished (procs s) i.
Proof.
  intros Hs H. pose proof (effect_refl (fun _ => False) s) as Heff.
  unfold pcp_schedule in H.
  schedule_done Hs H.
Qed.

Lemma pip_schedule_effect s n s' :
  settled s -> pip_schedule s = Done n s' ->
  effect (fun _ => False) s s' /\ forall i, n = Some i -> unfinished (procs s) i.
Proof.
  intros Hs H. pose proof (effect_refl (fun _ => False) s) as Heff.
  unfold pip_schedule in H.
  schedule_done Hs H.
Qed.

Section AgingEffect.

Variable MAX_PRIO : Z.
Variable P : pid -> Prop.
Variable s0 : state.

Lemma pa_age_effect p s a s' :
  effect P s0 s -> pa_age MAX_PRIO p s = Done a s' -> effect P s0 s'.
Proof.
  intros Heff H. unfold pa_age in H. mexec; assumption.
Qed.

Lemma pa_scan_effect q : forall next s r s',
  effect P s0 s -> pa_scan MAX_PRIO q next s = Done r s' ->
  effect P s0 s' /\ (r = next \/ exists w, r = Some w /\ w ∈ q).
Proof.
  induction q as [|p q IH]; intros next s r s' Heff H.
  - apply ret_inv in H as [-> ->]. split; [exact Heff | now left].
  - destruct next as [n|].
    + rewrite pa_scan_cons_Some in H.
      apply bind_inv in H as (u & s1 & H1 & H).
      apply (pa_age_effect _ _ _ _ Heff) in H1.
      apply bind_inv in H as (pp & s2 & H2 & H). apply load_inv in H2 as [_ ->].
      apply bind_inv in H as (pn & s2 & H2 & H). apply load_inv in H2 as [_ ->].
      apply (IH _ _ _ _ H1) in H as [H [->|(w & -> & Hw)]]; (split; [exact H|]).
      * destruct (higher_prio pp pn); [right; exists p; split; [reflexivity | now left] | now left].
      * right. exists w. split; [reflexivity | now right].
    + rewrite pa_scan_cons_None in H.
      apply bind_inv in H as (u & s1 & H1 & H).
      apply (pa_age_effect _ _ _ _ Heff) in H1.
      apply (IH _ _ _ _ H1) in H as [H [->|(w & -> & Hw)]]; (split; [exact H|]).
      * right. exists p. split; [reflexivity | now left].
      * right. exists w. split; [reflexivity | now right].
Qed.

End AgingEffect.

Lemma pa_schedule_effect MAX_PRIO s n s' :
  settled s -> pa_schedule MAX_PRIO s = Done n s' ->
  effect (fun _ => False) s s' /\ forall i, n = Some i -> unfinished (procs s) i.
Proof.
  intros Hs H. pose proof (effect_refl (fun _ => False) s) as Heff.
  unfold pa_schedule, pa_pick_next, absent_or_blocked in H.
  mexec.
  all: repeat match goal with
       | Heff : effect _ _ ?sk, H : pa_scan _ _ _ ?sk = Done _ _ |- _ =>
           apply (pa_scan_effect _ _ _ _ _ _ _ _ Heff) in H as [H [?|(? & ? & ?)]]; subst
       end.
  all: schedule_done Hs H.
Qed.

(** Every [schedule] keeps ages and owners, queues admissible processes
    only, and returns a process that has ticks left. *)
Lemma schedule_effect MAX_PRIO pol s n s' :
  settled s -> schedule (scheduler_of MAX_PRIO pol) s = Done n s' ->
  effect (fun _ => False) s s' /\ forall i, n = Some i -> unfinished (procs s) i.
Proof.
  destruct pol; cbn.
  - apply fcfs_schedule_effect.
  - apply sjf_schedule_effect.
  - apply stcf_schedule_effect.
  - apply rr_schedule_effect.
  - apply prio_schedule_effect.
  - apply pa_schedule_effect.
  - apply pcp_schedule_effect.
  - apply pip_schedule_effect.
Qed.

(** *** What [release] and [acquire] do *)

Lemma queued_waiter s r x w :
  resources s !! r = Some x -> w ∈ waitqueue x -> w ∈ queued s.
Proof.
  intros Hr Hw. apply elem_of_app. right. apply elem_of_waitqueues. eauto.
Qed.

(** The process woken by a release was waiting in a queue. *)
Ltac woken_waiter :=
  let i := fresh "i" in
  let Hi := fresh "Hi" in
  intros i Hi; simplify_eq;
  first
    [ discriminate
    | left; eapply queued_waiter; [eassumption|];
      first [ assumption | now apply head_elem ]
    | match goal with
      | Heff : effect _ ?s0 ?sk, Hw : ?w ∈ readyqueue ?sk |- admissible ?s0 ?w =>
          apply (eff_queued _ _ _ Heff), elem_of_app; now left
      end ].

Ltac release_done :=
  mexec; try woken_waiter; try assumption.

Lemma fcfs_release_effect r s a s' :
  fcfs_release r s = Done a s' -> effect (fun _ => False) s s'.
Proof.
  intros H. pose proof (effect_refl (fun _ => False) s) as Heff.
  unfold fcfs_release, list_first_entry in H. release_done.
Qed.

Lemma prio_release_effect r s a s' :
  prio_release r s = Done a s' -> effect (fun _ => False) s s'.
Proof.
  intros H. pose proof (effect_refl (fun _ => False) s) as Heff.
  unfold prio_release, wake in H. release_done.
Qed.

Lemma pa_release_effect r s a s' :
  pa_release r s = Done a s' -> effect (fun _ => False) s s'.
Proof.
  intros H. pose proof (effect_refl (fun _ => False) s) as Heff.
  unfold pa_release, wake in H. release_done.
Qed.

Lemma pcp_release_effect r s a s' :
  pcp_release r s = Done a s' -> effect (fun _ => False) s s'.
Proof.
  intros H. pose proof (effect_refl (fun _ => False) s) as Heff.
  unfold pcp_release, wake in H. release_done.
Qed.

Lemma pip_release_effect r s a s' :
  pip_release r s = Done a s' -> effect (fun _ => False) s s'.
Proof.
  intros H. pose proof (effect_refl (fun _ => False) s) as Heff.
  unfold pip_release, wake in H. release_done.
Qed.

Lemma release_effect MAX_PRIO pol r s a s' :
  release (scheduler_of MAX_PRIO pol) r s = Done a s' ->
  effect (fun _ => False) s s'.
Proof.
  destruct pol; cbn.
  - apply fcfs_release_effect.
  - apply fcfs_release_effect.
  - apply fcfs_release_effect.
  - apply fcfs_release_effect.
  - apply prio_release_effect.
  - apply pa_release_effect.
  - apply pcp_release_effect.
  - apply pip_release_effect.
Qed.

(** The process that asks has ticks left, so that it may be queued; the
    owner that [pa_acquire] evicts is the current process or has ticks
    left, by the invariant. *)
Ltac asking Hs Hc Hu :=
  let i := fresh "i" in
  let Hi := fresh "Hi" in
  intros i Hi; simplify_eq;
  first
    [ assumption
    | right; assumption
    | match goal with
      | Hr : resources ?s !! ?r = Some ?x, Ho : owner ?x = Some ?o
        |- admissible ?s ?o =>
          right;
          destruct (sound_owners s Hs o (ex_intro _ r (ex_intro _ x (conj Hr Ho))));
          [simplify_eq|]; assumption
      end ].

Ltac acquire_done Hs Hc Hu :=
  mexec; try asking Hs Hc Hu; try assumption.

Lemma fcfs_acquire_effect r s c b s' :
  current s = Some c -> unfinished (procs s) c ->
  fcfs_acquire r s = Done b s' -> effect (fun o => current s = Some o) s s'.
Proof.
  intros Hc Hu H. pose proof (effect_refl (fun o => current s = Some o) s) as Heff.
  unfold fcfs_acquire in H. acquire_done Hc Hc Hu.
Qed.

Lemma prio_acquire_effect r s c b s' :
  current s = Some c -> unfinished (procs s) c ->
  prio_acquire r s = Done b s' -> effect (fun o => current s = Some o) s s'.
Proof.
  intros Hc Hu H. pose proof (effect_refl (fun o => current s = Some o) s) as Heff.
  unfold prio_acquire in H. acquire_done Hc Hc Hu.
Qed.

Lemma pa_acquire_effect r s c b s' :
  sound s -> current s = Some c -> unfinished (procs s) c ->
  pa_acquire r s = Done b s' -> effect (fun o => current s = Some o) s s'.
Proof.
  intros Hs Hc Hu H. pose proof (effect_refl (fun o => current s = Some o) s) as Heff.
  unfold pa_acquire in H. acquire_done Hs Hc Hu.
Qed.

Lemma pcp_acquire_effect MAX_PRIO r s c b s' :
  current s = Some c -> unfinished (procs s) c ->
  pcp_acquire MAX_PRIO r s = Done b s' -> effect (fun o => current s = Some o) s s'.
Proof.
  intros Hc Hu H. pose proof (effect_refl (fun o => current s = Some o) s) as Heff.
  unfold pcp_acquire in H. acquire_done Hc Hc Hu.
Qed.

Lemma pip_acquire_effect r s c b s' :
  current s = Some c -> unfinished (procs s) c ->
  pip_acquire r s = Done b s' -> effect (fun o => current s = Some o) s s'.
Proof.
  intros Hc Hu H. pose proof (effect_refl (fun o => current s = Some o) s) as Heff.
  unfold pip_acquire in H. acquire_done Hc Hc Hu.
Qed.

Lemma acquire_effect MAX_PRIO pol r s c b s' :
  sound s -> current s = Some c -> unfinished (procs s) c ->
  acquire (scheduler_of MAX_PRIO pol) r s = Done b s' ->
  effect (fun o => current s = Some o) s s'.
Proof.
  intros Hs. destruct pol; cbn.
  - apply fcfs_acquire_effect.
  - apply fcfs_acquire_effect.
  - apply fcfs_acquire_effect.
  - apply fcfs_acquire_effect.
  - apply prio_acquire_effect.
  - now apply pa_acquire_effect.
  - apply pcp_acquire_effect.
  - apply pip_acquire_effect.
Qed.


Lemma no_new_owner s : forall o, False -> current s = Some o.
Proof. intros o []. Qed.

(** [schedule] keeps the invariant and returns a process that has ticks
    left, under every policy. *)
Theorem schedule_keeps_sound MAX_PRIO pol s next s' :
  sound s -> schedule (scheduler_of MAX_PRIO pol) s = Done next s' ->
  sound s' /\ current s' = current s /\
  forall i, next = Some i -> unfinished (procs s') i.
Proof.
  intros Hs H.
  destruct (schedule_effect MAX_PRIO pol s next s' (sound_settled s Hs) H) as [Heff Hn].
  split; [exact (sound_effect _ s s' (no_new_owner s) Hs Heff)|].
  split; [apply (eff_current _ _ _ Heff)|].
  intros i Hi. eapply unfinished_life; [apply (eff_life _ _ _ Heff) | auto].
Qed.

(** Round-robin, in the state where process 1 has just blocked: process 2,
    which [schedule] returns, has ticks left. *)
Lemma schedule_keeps_sound_witness :
  sound (mk_state (procs blocked_current) (Some 1%nat) [1%nat]
           [mk_resource (Some 2%nat) [1%nat]]) /\
  Some 1%nat = current blocked_current /\
  forall i, Some 2%nat = Some i -> unfinished (procs blocked_current) i.
Proof.
  refine (schedule_keeps_sound 64 RR blocked_current (Some 2%nat)
            (mk_state (procs blocked_current) (Some 1%nat) [1%nat]
               [mk_resource (Some 2%nat) [1%nat]]) _ _).
  - apply soundb_sound. vm_compute. reflexivity.
  - vm_compute. reflexivity.
Defined.

(** ** Acquire, policy by policy *)

(** On a free resource every [acquire] grants: the current process becomes
    the owner and the result is true; nothing else changes, but for PCP,
    which raises the new owner to [MAX_PRIO]. *)
Theorem acquire_free_grants MAX_PRIO pol s r x c pc :
  resources s !! r = Some x -> owner x = None ->
  current s = Some c -> procs s !! c = Some pc ->
  acquire (scheduler_of MAX_PRIO pol) r s
  = Done true
      (mk_state
         (match pol with
          | PCP => <[c := set_prio MAX_PRIO pc]> (procs s)
          | _ => procs s
          end)
         (current s) (readyqueue s)
         (<[r := mk_resource (Some c) (waitqueue x)]> (resources s))).
Proof.
  intros Hr Ho Hc Hpc. destruct s as [m cur rq rs]. destruct x as [ow wq].
  cbn in *. subst.
  destruct pol; cbn;
    unfold fcfs_acquire, prio_acquire, pa_acquire, pcp_acquire, pip_acquire;
    munfold; mstep; reflexivity.
Qed.

Lemma acquire_free_grants_witness :
  acquire (scheduler_of 64 PCP) 0 free_resource
  = Done true
      (mk_state
         (table [(1%nat, mk_process PROCESS_RUNNING 1 4 64 2);
                 (2%nat, mk_process PROCESS_READY 0 3 5 5);
                 (3%nat, mk_process PROCESS_READY 0 2 5 5)])
         (Some 1%nat) [2%nat; 3%nat] [mk_resource (Some 1%nat) []]).
Proof.
  exact (acquire_free_grants 64 PCP free_resource 0 (mk_resource None []) 1
           (mk_process PROCESS_RUNNING 1 4 2 2) eq_refl eq_refl eq_refl eq_refl).
Defined.

(** On a held resource [fcfs_acquire] marks the current process BLOCKED
    and appends it to the wait queue, behind the processes that asked
    before; the owner and the ready queue are not touched and the result
    is false. *)
Theorem fcfs_acquire_held_blocks s r x o c pc :
  resources s !! r = Some x -> owner x = Some o ->
  current s = Some c -> procs s !! c = Some pc ->
  fcfs_acquire r s
  = Done false
      (mk_state (<[c := set_status PROCESS_BLOCKED pc]> (procs s)) (current s)
         (readyqueue s)
         (<[r := mk_resource (Some o) (waitqueue x ++ [c])]> (resources s))).
Proof.
  intros Hr Ho Hc Hpc. destruct s as [m cur rq rs]. destruct x as [ow wq].
  cbn in *. subst.
  unfold fcfs_acquire. munfold. mstep. reflexivity.
Qed.

Lemma fcfs_acquire_held_blocks_witness :
  fcfs_acquire 0 held_resource
  = Done false
      (mk_state
         (table [(1%nat, mk_process PROCESS_BLOCKED 1 4 2 2);
                 (2%nat, mk_process PROCESS_READY 0 3 5 5);
                 (3%nat, mk_process PROCESS_READY 1 2 5 5)])
         (Some 1%nat) [2%nat; 3%nat] [mk_resource (Some 3%nat) [1%nat]]).
Proof.
  exact (fcfs_acquire_held_blocks held_resource 0 (mk_resource (Some 3%nat) []) 3 1
           (mk_process PROCESS_RUNNING 1 4 2 2) eq_refl eq_refl eq_refl eq_refl).
Defined.

(** On a held resource [prio_acquire] and [pcp_acquire] do the same: the
    current process is taken out of whatever queue holds it, appended to
    the wait queue and marked BLOCKED; no priority changes and the result
    is false. *)
Theorem prio_pcp_acquire_held_blocks MAX_PRIO pol s r x o c pc :
  pol = PRIO \/ pol = PCP ->
  resources s !! r = Some x -> owner x = Some o ->
  current s = Some c -> procs s !! c = Some pc ->
  acquire (scheduler_of MAX_PRIO pol) r s = Done false (blocked_on r x c pc s).
Proof.
  intros Hpol Hr Ho Hc Hpc. destruct s as [m cur rq rs]. destruct x as [ow wq].
  cbn in *. subst.
  assert ((unlink_resource c <$> rs) !! r
          = Some (mk_resource (Some o) (unlink c wq))) as Hr'.
  { rewrite list_lookup_fmap, Hr. reflexivity. }
  destruct Hpol as [-> | ->]; cbn; unfold prio_acquire, pcp_acquire, blocked_on;
    munfold; mstep; reflexivity.
Qed.

Lemma prio_pcp_acquire_held_blocks_witness :
  prio_acquire 0 held_resource
  = Done false
      (mk_state
         (table [(1%nat, mk_process PROCESS_BLOCKED 1 4 2 2);
                 (2%nat, mk_process PROCESS_READY 0 3 5 5);
                 (3%nat, mk_process PROCESS_READY 1 2 5 5)])
         (Some 1%nat) [2%nat; 3%nat] [mk_resource (Some 3%nat) [1%nat]]).
Proof.
  exact (prio_pcp_acquire_held_blocks 64 PRIO held_resource 0
           (mk_resource (Some 3%nat) []) 3 1 (mk_process PROCESS_RUNNING 1 4 2 2)
           (or_introl eq_refl) eq_refl eq_refl eq_refl eq_refl).
Defined.

(** On a held resource [pa_acquire] compares priorities.  A requester of a
    lower priority is marked BLOCKED and appended to the wait queue, as
    under FCFS.  Otherwise the owner is marked BLOCKED and appended to
    the wait queue, the requester becomes the owner and the result is
    true.  [pa_acquire] appends without taking out first, so this is
    stated for a process to append that is in no queue, in a state where
    every process is in at most one. *)
Theorem pa_acquire_held_evicts s r x o c pc po :
  resources s !! r = Some x -> owner x = Some o ->
  current s = Some c -> procs s !! c = Some pc -> procs s !! o = Some po ->
  membership_ok s -> (if prio pc <? prio po then c else o) ∉ queued s ->
  pa_acquire r s
  = if prio pc <? prio po then
      Done false
        (mk_state
           (<[c := mk_process PROCESS_BLOCKED (age pc) (lifespan pc) (prio pc)
                     (prio_orig pc)]> (procs s))
           (Some c) (readyqueue s)
           (<[r := mk_resource (Some o) (waitqueue x ++ [c])]> (resources s)))
    else
      Done true
        (mk_state
           (<[o := mk_process PROCESS_BLOCKED (age po) (lifespan po) (prio po)
                     (prio_orig po)]> (procs s))
           (Some c) (readyqueue s)
           (<[r := mk_resource (Some c) (waitqueue x ++ [o])]> (resources s))).
Proof.
  intros Hr Ho Hc Hpc Hpo _ _. destruct s as [m cur rq rs]. destruct x as [ow wq].
  cbn in *. subst.
  assert (r < length rs)%nat as Hlen by (eapply lookup_lt_Some; eauto).
  unfold pa_acquire. munfold. mstep.
  destruct (prio pc <? prio po); mstep; [reflexivity|].
  rewrite list_lookup_insert_eq by exact Hlen. cbn.
  now rewrite list_insert_insert_eq.
Qed.

(** Process 1, of priority 5, asks for the resource of process 3, of
    priority 2, which has finished and is in no queue. *)
Lemma pa_acquire_held_evicts_witness :
  pa_acquire 0 held_by_finished
  = Done true
      (mk_state
         (table [(1%nat, mk_process PROCESS_RUNNING 1 4 5 5);
                 (2%nat, mk_process PROCESS_READY 0 3 5 5);
                 (3%nat, mk_process PROCESS_BLOCKED 2 2 2 2)])
         (Some 1%nat) [2%nat] [mk_resource (Some 1%nat) [3%nat]]).
Proof.
  refine (pa_acquire_held_evicts held_by_finished 0
            (mk_resource (Some 3%nat) []) 3 1
            (mk_process PROCESS_RUNNING 1 4 5 5) (mk_process PROCESS_READY 2 2 2 2)
            eq_refl eq_refl eq_refl eq_refl eq_refl _ _).
  - by apply (bool_decide_unpack _).
  - by apply (bool_decide_unpack _).
Defined.

(** ** Release, policy by policy *)

(** In a state where every process is in at most one queue,
    [fcfs_release] by the owner frees the resource and serves the wait
    queue in arrival order: the process at its head, if there is one,
    leaves the queue, becomes READY and goes to the tail of the ready
    queue; the call stops in its second assertion, with the resource
    already free, when that process is not BLOCKED. *)
Theorem fcfs_release_wakes_first s r x :
  resources s !! r = Some x -> owner x = current s -> membership_ok s ->
  match waitqueue x with
  | [] => fcfs_release r s = Done tt (freed r x s)
  | w :: _ =>
      forall pw, procs s !! w = Some pw ->
        fcfs_release r s
        = if bool_decide (status pw = PROCESS_BLOCKED)
          then Done tt (woken w pw (freed r x s))
          else Abort (freed r x s)
  end.
Proof.
  intros Hr Ho _. destruct s as [m cur rq rs]. destruct x as [ow wq].
  cbn in *. subst.
  unfold fcfs_release, freed. munfold. mstep.
  rewrite bool_decide_eq_true_2 by done. mstep.
  destruct wq as [|w wq']; [reflexivity|].
  intros pw Hpw. mstep. destruct (bool_decide (status pw = PROCESS_BLOCKED)); mstep;
    reflexivity.
Qed.

Lemma fcfs_release_wakes_first_witness :
  fcfs_release 0 pcp_held
  = Done tt
      (mk_state
         (table [(1%nat, mk_process PROCESS_RUNNING 2 4 64 2);
                 (2%nat, mk_process PROCESS_READY 0 3 5 5);
                 (3%nat, mk_process PROCESS_BLOCKED 0 3 7 7);
                 (4%nat, mk_process PROCESS_BLOCKED 0 3 7 7)])
         (Some 1%nat) [2%nat] [mk_resource None [3%nat; 4%nat]]).
Proof.
  exact (fcfs_release_wakes_first pcp_held 0
           (mk_resource (Some 1%nat) [2%nat; 3%nat; 4%nat]) eq_refl eq_refl
           ltac:(by apply (bool_decide_unpack _))
           (mk_process PROCESS_BLOCKED 0 3 5 5) eq_refl).
Defined.

(** [prio_release] by the owner frees the resource; when processes wait,
    all of them BLOCKED, the first waiter of the highest priority leaves
    the wait queue, becomes READY and goes to the tail of the ready
    queue. *)
Theorem prio_release_wakes_highest s r x :
  resources s !! r = Some x -> owner x = current s ->
  all_blocked (procs s) (waitqueue x) ->
  if list_empty (waitqueue x)
  then prio_release r s = Done tt (freed r x s)
  else exists w pw,
      first_max (procs s) prio (waitqueue x) w /\ procs s !! w = Some pw /\
      prio_release r s = Done tt (woken w pw (freed r x s)).
Proof.
  intros Hr Ho Hwq. destruct s as [m cur rq rs]. destruct x as [ow wq].
  cbn in *. subst.
  unfold prio_release, freed. munfold. mstep.
  rewrite bool_decide_eq_true_2 by done. mstep.
  destruct wq as [|h wq']; [reflexivity|]. cbn [list_empty negb].
  set (wq := h :: wq') in *.
  scan_max.
  - discriminate.
  - intros i Hi. cbn. destruct (Hwq i Hi) as (p & Hp & _). eauto.
  - cbn in Hmax.
    assert (w ∈ wq) as Hw by (eapply first_max_elem; eauto).
    destruct (Hwq w Hw) as (pw & Hpw & Hst).
    exists w, pw. split; [exact Hmax|]. split; [exact Hpw|].
    mstep. rewrite bool_decide_eq_true_2 by done. mstep. reflexivity.
Qed.

Lemma prio_release_wakes_highest_witness :
  exists w pw,
    first_max (procs pcp_held) prio [2%nat; 3%nat; 4%nat] w /\
    procs pcp_held !! w = Some pw /\
    prio_release 0 pcp_held
    = Done tt (woken w pw
                 (freed 0 (mk_resource (Some 1%nat) [2%nat; 3%nat; 4%nat]) pcp_held)).
Proof.
  apply (prio_release_wakes_highest pcp_held 0
           (mk_resource (Some 1%nat) [2%nat; 3%nat; 4%nat]) eq_refl eq_refl).
  intros i Hi. in_list Hi; vm_compute; eauto.
Defined.

(** [pip_release] by the owner puts the owner back at its original
    priority, frees the resource and, when processes wait, all of them
    BLOCKED, wakes the first waiter of the highest priority. *)
Theorem pip_release_restores_and_wakes s r x c pc :
  resources s !! r = Some x -> owner x = Some c -> current s = Some c ->
  procs s !! c = Some pc -> c ∉ waitqueue x ->
  all_blocked (procs s) (waitqueue x) ->
  if list_empty (waitqueue x)
  then pip_release r s = Done tt (pcp_released r x c pc s)
  else exists w pw,
      first_max (procs s) prio (waitqueue x) w /\ procs s !! w = Some pw /\
      pip_release r s = Done tt (woken w pw (pcp_released r x c pc s)).
Proof.
  intros Hr Ho Hc Hpc Hcw Hwq. destruct s as [m cur rq rs]. destruct x as [ow wq].
  cbn in *. subst.
  unfold pip_release, pcp_released. munfold. mstep.
  rewrite bool_decide_eq_true_2 by done. mstep.
  destruct wq as [|h wq']; [reflexivity|]. cbn [list_empty negb].
  set (wq := h :: wq') in *.
  scan_max.
  - discriminate.
  - intros i Hi. cbn. destruct (Hwq i Hi) as (p & Hp & _).
    rewrite lookup_insert_ne; [eauto|]. intros ->. contradiction.
  - cbn in Hmax. apply first_max_insert_notin in Hmax; [|exact Hcw].
    assert (w ∈ wq) as Hw by (eapply first_max_elem; eauto).
    destruct (Hwq w Hw) as (pw & Hpw & Hst).
    assert (c <> w) as Hne by (intros ->; contradiction).
    exists w, pw. split; [exact Hmax|]. split; [exact Hpw|].
    mstep. rewrite bool_decide_eq_true_2 by done. mstep. reflexivity.
Qed.

Lemma pip_release_restores_and_wakes_witness :
  exists w pw,
    first_max (procs pcp_held) prio [2%nat; 3%nat; 4%nat] w /\
    procs pcp_held !! w = Some pw /\
    pip_release 0 pcp_held
    = Done tt (woken w pw
                 (pcp_released 0 (mk_resource (Some 1%nat) [2%nat; 3%nat; 4%nat]) 1
                    (mk_process PROCESS_RUNNING 2 4 64 2) pcp_held)).
Proof.
  apply (pip_release_restores_and_wakes pcp_held 0
           (mk_resource (Some 1%nat) [2%nat; 3%nat; 4%nat]) 1
           (mk_process PROCESS_RUNNING 2 4 64 2) eq_refl eq_refl eq_refl eq_refl).
  - cbn. intros Hi. in_list Hi; discriminate.
  - intros i Hi. in_list Hi; vm_compute; eauto.
Defined.

(** [pa_release] by the owner never wakes anybody when a process waits for
    the resource and the ready queue holds no BLOCKED process: it looks
    for the waiter in the ready queue, and after it has freed the
    resource it dereferences NULL if the ready queue is empty and stops in
    its assertion if not. *)
Theorem pa_release_never_wakes s r x :
  resources s !! r = Some x -> owner x = current s ->
  waitqueue x <> [] -> none_blocked (procs s) (readyqueue s) ->
  pa_release r s = if list_empty (readyqueue s) then Fault else Abort (freed r x s).
Proof.
  intros Hr Ho Hwq Hrq. destruct s as [m cur rq rs]. destruct x as [ow wq].
  cbn in *. subst.
  unfold pa_release, freed. munfold. mstep.
  rewrite bool_decide_eq_true_2 by done. mstep.
  destruct wq as [|h wq']; [congruence|]. cbn [list_empty negb].
  destruct rq as [|n rq']; [reflexivity|]. cbn [list_empty].
  set (rq := n :: rq') in *.
  scan_any.
  - discriminate.
  - intros i Hi. cbn. destruct (Hrq i Hi) as (p & Hp & _). eauto.
  - destruct (Hrq w Hin) as (pw & Hpw & Hst). mstep.
    rewrite bool_decide_eq_false_2 by done. reflexivity.
Qed.

Lemma pa_release_never_wakes_witness :
  pa_release 0 release_with_waiter
  = Abort (freed 0 (mk_resource (Some 1%nat) [2%nat]) release_with_waiter).
Proof.
  apply (pa_release_never_wakes release_with_waiter 0
           (mk_resource (Some 1%nat) [2%nat]) eq_refl eq_refl).
  - discriminate.
  - intros i Hi. in_list Hi. vm_compute. eexists. split; [reflexivity | discriminate].
Defined.

(** ** Acquire and release, one after the other *)

(** A process that takes a free resource nobody waits for and gives it
    back leaves the state as it found it, under every policy; under PCP
    and PIP, whose releases put the owner back at its original priority,
    for a process that is at its original priority. *)
Theorem acquire_release_round_trip MAX_PRIO pol s r c pc :
  resources s !! r = Some (mk_resource None []) ->
  current s = Some c -> procs s !! c = Some pc ->
  (pol = PCP \/ pol = PIP -> prio pc = prio_orig pc) ->
  (acquire (scheduler_of MAX_PRIO pol) r;; release (scheduler_of MAX_PRIO pol) r) s
  = Done tt s.
Proof.
  intros Hr Hc Hpc Hprio. destruct s as [m cur rq rs]. cbn in *. subst.
  assert (r < length rs)%nat as Hlen by (eapply lookup_lt_Some; eauto).
  assert (<[r := mk_resource None []]> rs = rs) as Hrs by now apply list_insert_id.
  assert (set_prio (prio pc) pc = pc) as Hsame by now destruct pc.
  destruct pol; cbn;
    unfold fcfs_acquire, prio_acquire, pa_acquire, pcp_acquire, pip_acquire,
      fcfs_release, prio_release, pa_release, pcp_release, pip_release;
    munfold; mstep;
    rewrite ?list_lookup_insert_eq by exact Hlen; mstep;
    rewrite ?bool_decide_eq_true_2 by done; mstep;
    rewrite ?list_lookup_insert_eq by exact Hlen; mstep;
    rewrite ?list_insert_insert_eq, ?Hrs; try reflexivity.
  - rewrite insert_insert_eq.
    change (set_prio (prio_orig pc) (set_prio MAX_PRIO pc))
      with (set_prio (prio_orig pc) pc).
    rewrite <- Hprio by now left. rewrite Hsame, insert_id by exact Hpc.
    reflexivity.
  - rewrite <- Hprio by now right. rewrite Hsame, insert_id by exact Hpc.
    reflexivity.
Qed.

Lemma acquire_release_round_trip_witness :
  (pcp_acquire 64 0;; pcp_release 0) free_resource = Done tt free_resource.
Proof.
  exact (acquire_release_round_trip 64 PCP free_resource 0 1
           (mk_process PROCESS_RUNNING 1 4 2 2) eq_refl eq_refl eq_refl
           (fun _ => eq_refl)).
Defined.

(** ** Schedule, policy by policy *)

Lemma first_max_min m key q w :
  first_max m (fun p => - key p) q w -> first_min m key q w.
Proof.
  intros (q1 & q2 & pw & Hq & Hw & Hb & Ha). exists q1, q2, pw.
  repeat split; [exact Hq | exact Hw | |].
  - intros i p Hi Hp. specialize (Hb i p Hi Hp). lia.
  - intros i p Hi Hp. specialize (Ha i p Hi Hp). lia.
Qed.

Lemma first_min_elem m key q w : first_min m key q w -> w ∈ q.
Proof. intros (q1 & q2 & _ & -> & _). apply elem_of_app. right. now left. Qed.

Lemma less_key (key : process -> Z) p n :
  (key p <? key n) = (- key n <? - key p).
Proof.
  destruct (Z.ltb_spec (key p) (key n)), (Z.ltb_spec (- key n) (- key p));
    (reflexivity || lia).
Qed.

(** Runs a scan for the least key in the goal and names its result. *)
Ltac scan_min key :=
  match goal with
  | |- context [scan ?b ?q None ?st] =>
      let w := fresh "w" in
      let Hscan := fresh "Hscan" in
      let Hmin := fresh "Hmin" in
      destruct (scan_None_first_max b (fun p => - key p) (less_key key) q st)
        as (w & Hscan & Hmin); [ | | rewrite Hscan; apply first_max_min in Hmin]
  end.

(** With no process to run and nothing ready, FCFS, SJF and Priority +
    aging return none; the other five policies read [current->age] and
    dereference NULL. *)
Theorem idle_schedule MAX_PRIO pol s :
  readyqueue s = [] -> current s = None ->
  schedule (scheduler_of MAX_PRIO pol) s
  = match pol with
    | FCFS | SJF | PA => Done None s
    | _ => Fault
    end.
Proof.
  intros Hrq Hc. destruct s as [m cur rq rs]. cbn in *. subst.
  destruct pol; reflexivity.
Qed.

Lemma idle_schedule_witness :
  schedule (scheduler_of 64 PA) idle = Done None idle /\
  schedule (scheduler_of 64 STCF) idle = Fault.
Proof.
  split.
  - exact (idle_schedule 64 PA idle eq_refl eq_refl).
  - exact (idle_schedule 64 STCF idle eq_refl eq_refl).
Defined.

(** FCFS and SJF do not preempt: a current process that is not blocked and
    has ticks left goes on, whatever the ready queue holds, and nothing
    changes. *)
Theorem fcfs_sjf_run_to_completion MAX_PRIO pol s c pc :
  pol = FCFS \/ pol = SJF ->
  current s = Some c -> procs s !! c = Some pc ->
  status pc <> PROCESS_BLOCKED -> age pc < lifespan pc ->
  schedule (scheduler_of MAX_PRIO pol) s = Done (Some c) s.
Proof.
  intros Hpol Hc Hpc Hst Hage. destruct s as [m cur rq rs]. cbn in *. subst.
  apply Z.ltb_lt in Hage.
  destruct Hpol as [-> | ->]; cbn; unfold fcfs_schedule, sjf_schedule; munfold;
    mstep; rewrite bool_decide_eq_false_2 by done; mstep; rewrite Hage; reflexivity.
Qed.

Lemma fcfs_sjf_run_to_completion_witness :
  sjf_schedule three_ready = Done (Some 1%nat) three_ready.
Proof.
  apply (fcfs_sjf_run_to_completion 64 SJF three_ready 1
           (mk_process PROCESS_RUNNING 1 4 4 4) (or_intror eq_refl) eq_refl eq_refl).
  - discriminate.
  - cbn. lia.
Defined.

Lemma gives_way_skip s :
  gives_way s ->
  (absent_or_blocked (current s) s = Done true s) \/
  (exists c pc, current s = Some c /\ procs s !! c = Some pc /\
                absent_or_blocked (current s) s = Done false s /\
                (age pc <? lifespan pc) = false).
Proof.
  unfold gives_way, absent_or_blocked. destruct (current s) as [c|]; [|now left].
  intros (pc & Hpc & Hcase). cbn. munfold. rewrite Hpc.
  destruct (decide (status pc = PROCESS_BLOCKED)) as [Hb|Hb].
  - left. now rewrite bool_decide_eq_true_2.
  - right. exists c, pc. repeat split; [exact Hpc | now rewrite bool_decide_eq_false_2|].
    destruct Hcase as [?|Hle]; [contradiction|]. now apply Z.ltb_ge.
Qed.

Lemma fcfs_pick_next_head s :
  live (procs s) (readyqueue s) ->
  fcfs_pick_next s
  = match readyqueue s with
    | [] => Done None s
    | h :: _ => Done (Some h) (dequeued h s)
    end.
Proof.
  intros Hl. unfold fcfs_pick_next, dequeued. munfold.
  destruct (readyqueue s) as [|h t] eqn:Hrq; [reflexivity|]. cbn.
  destruct (Hl h) as [ph Hh]; [now left|].
  rewrite Hh. cbn. now rewrite Hrq.
Qed.

Lemma fcfs_schedule_gives_way s :
  gives_way s -> fcfs_schedule s = fcfs_pick_next s.
Proof.
  intros Hg. unfold fcfs_schedule.
  rewrite (bind_Done get_current _ s (current s) s eq_refl).
  destruct (gives_way_skip s Hg) as [Hskip|(c & pc & Hc & Hpc & Hskip & Hfin)].
  - now rewrite (bind_Done _ _ _ _ _ Hskip).
  - rewrite (bind_Done _ _ _ _ _ Hskip). rewrite Hc.
    rewrite (bind_Done _ _ _ _ _ (load_Some _ _ _ Hpc)). now rewrite Hfin.
Qed.

(** When the current process is absent, blocked or finished,
    [fcfs_schedule] takes the head of the ready queue, and returns none
    when the ready queue is empty. *)
Theorem fcfs_schedule_picks_head s :
  gives_way s -> live (procs s) (readyqueue s) ->
  fcfs_schedule s
  = match readyqueue s with
    | [] => Done None s
    | h :: _ => Done (Some h) (dequeued h s)
    end.
Proof.
  intros Hg Hl. rewrite (fcfs_schedule_gives_way s Hg). now apply fcfs_pick_next_head.
Qed.

Lemma fcfs_schedule_picks_head_witness :
  fcfs_schedule three_ready_idle = Done (Some 2%nat) (dequeued 2 three_ready_idle).
Proof.
  apply (fcfs_schedule_picks_head three_ready_idle).
  - exact I.
  - intros i Hi. in_list Hi; vm_compute; eauto.
Defined.

Lemma sjf_pick_next_shortest s :
  live (procs s) (readyqueue s) ->
  if list_empty (readyqueue s) then sjf_pick_next s = Done None s
  else exists w,
      first_min (procs s) lifespan (readyqueue s) w /\
      sjf_pick_next s = Done (Some w) (dequeued w s).
Proof.
  intros Hl. unfold sjf_pick_next, dequeued. munfold.
  destruct (readyqueue s) as [|h t] eqn:Hrq; [reflexivity|]. cbn [list_empty negb].
  scan_min lifespan; [discriminate | exact Hl |].
  exists w. split; [exact Hmin|].
  destruct (Hl w (first_min_elem _ _ _ _ Hmin)) as [pw Hpw].
  rewrite Hpw. cbn. now rewrite Hrq.
Qed.

Lemma sjf_schedule_gives_way s :
  gives_way s -> sjf_schedule s = sjf_pick_next s.
Proof.
  intros Hg. unfold sjf_schedule.
  rewrite (bind_Done get_current _ s (current s) s eq_refl).
  destruct (gives_way_skip s Hg) as [Hskip|(c & pc & Hc & Hpc & Hskip & Hfin)].
  - now rewrite (bind_Done _ _ _ _ _ Hskip).
  - rewrite (bind_Done _ _ _ _ _ Hskip). rewrite Hc.
    rewrite (bind_Done _ _ _ _ _ (load_Some _ _ _ Hpc)). now rewrite Hfin.
Qed.

(** When the current process is absent, blocked or finished,
    [sjf_schedule] takes the first process of the least lifespan out of
    the ready queue, and returns none when the ready queue is empty. *)
Theorem sjf_schedule_picks_shortest s :
  gives_way s -> live (procs s) (readyqueue s) ->
  if list_empty (readyqueue s) then sjf_schedule s = Done None s
  else exists w,
      first_min (procs s) lifespan (readyqueue s) w /\
      sjf_schedule s = Done (Some w) (dequeued w s).
Proof.
  intros Hg Hl. rewrite (sjf_schedule_gives_way s Hg). now apply sjf_pick_next_shortest.
Qed.

Lemma sjf_schedule_picks_shortest_witness :
  exists w,
    first_min (procs three_ready_idle) lifespan [2%nat; 3%nat; 4%nat] w /\
    sjf_schedule three_ready_idle = Done (Some w) (dequeued w three_ready_idle).
Proof.
  apply (sjf_schedule_picks_shortest three_ready_idle).
  - exact I.
  - intros i Hi. in_list Hi; vm_compute; eauto.
Defined.

(** With no current process [stcf_schedule] takes the first process of the
    least remaining time out of the ready queue. *)
Theorem stcf_idle_picks_shortest s :
  current s = None -> readyqueue s <> [] -> live (procs s) (readyqueue s) ->
  exists w,
    first_min (procs s) remaining (readyqueue s) w /\
    stcf_schedule s = Done (Some w) (dequeued w s).
Proof.
  intros Hc Hrq Hl. destruct s as [m cur rq rs]. cbn in *. subst.
  unfold stcf_schedule, dequeued. munfold. mstep.
  destruct rq as [|h t]; [congruence|]. cbn [list_empty negb].
  set (rq := h :: t) in *.
  scan_min remaining; [discriminate | exact Hl |].
  exists w. split; [exact Hmin|].
  destruct (Hl w (first_min_elem _ _ _ _ Hmin)) as [pw Hpw]. cbn in Hpw.
  mstep. reflexivity.
Qed.

Lemma stcf_idle_picks_shortest_witness :
  exists w,
    first_min (procs three_ready_idle) remaining [2%nat; 3%nat; 4%nat] w /\
    stcf_schedule three_ready_idle = Done (Some w) (dequeued w three_ready_idle).
Proof.
  apply (stcf_idle_picks_shortest three_ready_idle).
  - reflexivity.
  - discriminate.
  - intros i Hi. in_list Hi; vm_compute; eauto.
Defined.

(** What [stcf_schedule] does with a current process and a ready queue
    that is not empty, in the terms of the list primitives. *)
Lemma stcf_schedule_decides s c pc :
  current s = Some c -> procs s !! c = Some pc ->
  readyqueue s <> [] -> live (procs s) (readyqueue s) ->
  exists w pw,
    first_min (procs s) remaining (readyqueue s) w /\ procs s !! w = Some pw /\
    stcf_schedule s
    = if lifespan pc =? age pc then Done (Some w) (dequeued w s)
      else if remaining pc <? remaining pw then Done (Some c) (dequeued c s)
      else Done (Some w) (dequeued w (requeued c s)).
Proof.
  intros Hc Hpc Hrq Hl. destruct s as [m cur rq rs]. cbn in *. subst.
  unfold stcf_schedule, dequeued, requeued. munfold. mstep.
  destruct rq as [|h t]; [congruence|]. cbn [list_empty negb].
  set (rq := h :: t) in *.
  scan_min remaining; [discriminate | exact Hl |].
  destruct (Hl w (first_min_elem _ _ _ _ Hmin)) as [pw Hpw]. cbn in Hpw.
  exists w, pw. split; [exact Hmin|]. split; [exact Hpw|].
  mstep. destruct (lifespan pc =? age pc); mstep; [reflexivity|].
  destruct (remaining pc <? remaining pw); mstep; reflexivity.
Qed.

(** The current process went to the tail of the ready queue and the ready
    process [w] was taken out, when each was linked at most once. *)
Lemma dequeued_requeued s c w :
  membership_ok s -> c ∉ queued s -> w ∈ readyqueue s ->
  dequeued w (requeued c s)
  = mk_state (procs s) (current s) (unlink w (readyqueue s) ++ [c]) (resources s).
Proof.
  intros Hm Hc Hw.
  assert (w <> c) as Hwc.
  { intros ->. apply Hc. unfold queued. apply elem_of_app. now left. }
  unfold dequeued, requeued. destruct s as [m cur rq rs]. cbn in *.
  rewrite unlink_app, (unlink_cons_ne w c []) by congruence.
  f_equal. apply unlink_resources_notin.
  now apply (ready_not_waiting (mk_state m cur rq rs) w Hm).
Qed.

(** C2, amended: the current process is unfinished and in no queue, every
    process is in at most one queue, and the ready queue is not empty.
    When the remaining time of the current process is less than that of
    every ready process, the current process goes on and nothing changes.
    In general [stcf_schedule] compares with the first ready process [w]
    of the least remaining time: the current process goes on when its
    remaining time is less, and otherwise, on a tie too, [w] is taken out
    of the ready queue and returned and the current process goes to the
    tail of the ready queue. *)
Theorem stcf_current_continues s c pc :
  current s = Some c -> procs s !! c = Some pc -> lifespan pc <> age pc ->
  readyqueue s <> [] -> live (procs s) (readyqueue s) ->
  membership_ok s -> c ∉ queued s ->
  ((forall i p, i ∈ readyqueue s -> procs s !! i = Some p ->
      remaining pc < remaining p) ->
   stcf_schedule s = Done (Some c) s) /\
  exists w pw,
    first_min (procs s) remaining (readyqueue s) w /\ procs s !! w = Some pw /\
    stcf_schedule s
    = if remaining pc <? remaining pw then Done (Some c) s
      else Done (Some w)
             (mk_state (procs s) (Some c) (unlink w (readyqueue s) ++ [c])
                (resources s)).
Proof.
  intros Hc Hpc Hne Hrq Hl Hm Hcq.
  destruct (stcf_schedule_decides s c pc Hc Hpc Hrq Hl) as (w & pw & Hmin & Hpw & Hrun).
  pose proof (first_min_elem _ _ _ _ Hmin) as Hw.
  apply Z.eqb_neq in Hne. rewrite Hne in Hrun.
  rewrite (dequeued_notin s c Hcq), (dequeued_requeued s c w Hm Hcq Hw), Hc in Hrun.
  split.
  - intros Hlt. specialize (Hlt w pw Hw Hpw). apply Z.ltb_lt in Hlt.
    now rewrite Hlt in Hrun.
  - exists w, pw. split; [exact Hmin|]. split; [exact Hpw | exact Hrun].
Qed.

(** With two ticks left against three the current process goes on; with
    three against three process 2 runs and process 1 is queued. *)
Lemma stcf_current_continues_witness :
  stcf_schedule stcf_shorter = Done (Some 1%nat) stcf_shorter /\
  exists w pw,
    first_min (procs stcf_tie) remaining [2%nat] w /\
    procs stcf_tie !! w = Some pw /\
    stcf_schedule stcf_tie
    = if 3 <? remaining pw then Done (Some 1%nat) stcf_tie
      else Done (Some w)
             (mk_state (procs stcf_tie) (Some 1%nat) (unlink w [2%nat] ++ [1%nat]) []).
Proof.
  split.
  - apply (stcf_current_continues stcf_shorter 1 (mk_process PROCESS_RUNNING 2 4 0 0)).
    + reflexivity.
    + reflexivity.
    + cbn. lia.
    + discriminate.
    + intros i Hi. in_list Hi. vm_compute. eauto.
    + by apply (bool_decide_unpack _).
    + by apply (bool_decide_unpack _).
    + intros i p Hi Hp. in_list Hi. vm_compute in Hp.
      assert (p = mk_process PROCESS_READY 0 3 0 0) as -> by congruence.
      vm_compute. reflexivity.
  - apply (stcf_current_continues stcf_tie 1 (mk_process PROCESS_RUNNING 1 4 0 0)).
    + reflexivity.
    + reflexivity.
    + cbn. lia.
    + discriminate.
    + intros i Hi. in_list Hi. vm_compute. eauto.
    + by apply (bool_decide_unpack _).
    + by apply (bool_decide_unpack _).
Defined.

(** With a current process that is in no queue and a ready queue that is
    not empty, every process being in at most one queue, [stcf_schedule]
    finds the first ready process [w] of the least remaining time.  A
    finished current process gives way to [w].  An unfinished one goes on
    only when its remaining time is less than that of [w]; otherwise it
    is preempted: it goes to the tail of the ready queue and [w] is taken
    out and returned.  The wait queues are not touched. *)
Theorem stcf_schedule_preempts s c pc :
  current s = Some c -> procs s !! c = Some pc ->
  readyqueue s <> [] -> live (procs s) (readyqueue s) ->
  membership_ok s -> c ∉ queued s ->
  exists w pw,
    first_min (procs s) remaining (readyqueue s) w /\ procs s !! w = Some pw /\
    stcf_schedule s
    = if lifespan pc =? age pc
      then Done (Some w)
             (mk_state (procs s) (Some c) (unlink w (readyqueue s)) (resources s))
      else if remaining pc <? remaining pw then Done (Some c) s
      else Done (Some w)
             (mk_state (procs s) (Some c) (unlink w (readyqueue s) ++ [c])
                (resources s)).
Proof.
  intros Hc Hpc Hrq Hl Hm Hcq.
  destruct (stcf_schedule_decides s c pc Hc Hpc Hrq Hl) as (w & pw & Hmin & Hpw & Hrun).
  pose proof (first_min_elem _ _ _ _ Hmin) as Hw.
  rewrite (dequeued_notin s c Hcq), (dequeued_requeued s c w Hm Hcq Hw),
    (dequeued_ready s w Hm Hw), Hc in Hrun.
  exists w, pw. split; [exact Hmin|]. split; [exact Hpw | exact Hrun].
Qed.

Lemma stcf_schedule_preempts_witness :
  exists w pw,
    first_min (procs stcf_longer) remaining [2%nat; 3%nat] w /\
    procs stcf_longer !! w = Some pw /\
    stcf_schedule stcf_longer
    = if 6 <? remaining pw then Done (Some 1%nat) stcf_longer
      else Done (Some w)
             (mk_state (procs stcf_longer) (Some 1%nat)
                (unlink w [2%nat; 3%nat] ++ [1%nat]) []).
Proof.
  apply (stcf_schedule_preempts stcf_longer 1 (mk_process PROCESS_RUNNING 4 10 0 0)).
  - reflexivity.
  - reflexivity.
  - discriminate.
  - intros i Hi. in_list Hi; vm_compute; eauto.
  - by apply (bool_decide_unpack _).
  - by apply (bool_decide_unpack _).
Defined.

(** Round-robin rotates.  With every process in at most one queue and
    the current process in none, the head of the ready queue is taken out
    and returned, and a current process that has not finished goes to the
    tail; its status is not tested, and the wait queues are not
    touched. *)
Theorem rr_schedule_rotates s h t :
  readyqueue s = h :: t -> is_Some (procs s !! h) ->
  membership_ok s -> (forall c, current s = Some c -> c ∉ queued s) ->
  match current s with
  | None => rr_schedule s = Done (Some h) (mk_state (procs s) None t (resources s))
  | Some c =>
      forall pc, procs s !! c = Some pc ->
        rr_schedule s
        = Done (Some h)
            (mk_state (procs s) (Some c)
               (if lifespan pc =? age pc then t else t ++ [c])
               (resources s))
  end.
Proof.
  intros Hrq [ph Hh] Hm _.
  assert (h ∈ readyqueue s) as Hin by (rewrite Hrq; now left).
  assert (unlink_resource h <$> resources s = resources s) as Hres.
  { apply unlink_resources_notin. now apply (ready_not_waiting s h Hm). }
  assert (h ∉ t) as Hht.
  { apply membership_ready in Hm. rewrite Hrq in Hm. now apply NoDup_cons in Hm as [Hm _]. }
  clear Hm Hin.
  destruct s as [m cur rq rs]. cbn in *. subst.
  assert (unlink h (h :: t) = t) as Hun.
  { rewrite unlink_cons_eq. now apply unlink_notin. }
  unfold rr_schedule, list_first_entry. munfold.
  destruct cur as [c|]; mstep; rewrite Hun, Hres.
  - intros pc Hpc. mstep. destruct (lifespan pc =? age pc); mstep; reflexivity.
  - reflexivity.
Qed.

Lemma rr_schedule_rotates_witness :
  rr_schedule three_ready
  = Done (Some 2%nat)
      (mk_state (procs three_ready) (Some 1%nat) [3%nat; 4%nat; 1%nat]
         [mk_resource None []]).
Proof.
  refine (rr_schedule_rotates three_ready 2 [3%nat; 4%nat] eq_refl _ _ _
            (mk_process PROCESS_RUNNING 1 4 4 4) eq_refl).
  - vm_compute. eauto.
  - by apply (bool_decide_unpack _).
  - intros c Hc. injection Hc as <-. by apply (bool_decide_unpack _).
Defined.

(** Two scans that decide alike on the processes of the queue find the
    same process. *)
Lemma scan_agree better better' q : forall next s,
  (forall i p n, i ∈ q -> procs s !! i = Some p -> better p n = better' p n) ->
  scan better q next s = scan better' q next s.
Proof.
  induction q as [|p q IH]; intros next s H; [reflexivity|].
  assert (forall i pp n, i ∈ q -> procs s !! i = Some pp -> better pp n = better' pp n)
    as Hq by (intros i pp n Hi; apply H; now right).
  destruct next as [n|].
  - rewrite !scan_cons_Some. unfold bind, load.
    destruct (procs s !! p) as [pp|] eqn:Hp; [|reflexivity].
    destruct (procs s !! n) as [pn|]; [|reflexivity].
    rewrite (H p pp pn (ltac:(now left)) Hp). now apply IH.
  - rewrite !scan_cons_None. now apply IH.
Qed.

(** Priority, PCP and PIP decide alike between a current process that is
    not blocked and has ticks left and the first ready process [w] of the
    highest priority: the current process goes on only when its priority
    is the greater one; on a tie or below, it goes to the tail of the
    ready queue and [w] is taken out and returned. *)
Theorem priority_preemption MAX_PRIO pol s c pc :
  pol = PRIO \/ pol = PCP \/ pol = PIP ->
  current s = Some c -> procs s !! c = Some pc ->
  status pc <> PROCESS_BLOCKED -> age pc < lifespan pc ->
  readyqueue s <> [] -> all_ready (procs s) (readyqueue s) ->
  exists w pw,
    first_max (procs s) prio (readyqueue s) w /\ procs s !! w = Some pw /\
    schedule (scheduler_of MAX_PRIO pol) s
    = if prio pw <? prio pc then Done (Some c) s
      else Done (Some w) (dequeued w (requeued c s)).
Proof.
  intros Hpol Hc Hpc Hst Hage Hrq Hready.
  assert (live (procs s) (readyqueue s)) as Hl.
  { intros i Hi. destruct (Hready i Hi) as (p & Hp & _). eauto. }
  destruct s as [m cur rq rs]. cbn in *. subst.
  destruct rq as [|h t]; [congruence|].
  set (s := mk_state m (Some c) (h :: t) rs).
  destruct (scan_None_first_max higher_prio prio higher_prio_key (h :: t) s)
    as (w & Hscan & Hmax); [discriminate | exact Hl |].
  destruct (Hl w (first_max_elem _ _ _ _ Hmax)) as [pw Hpw].
  exists w, pw. split; [exact Hmax|]. split; [exact Hpw|].
  assert ((age pc <? lifespan pc) = true) as Hlt by now apply Z.ltb_lt.
  assert ((age pc =? lifespan pc) = false) as Hne by (apply Z.eqb_neq; lia).
  assert ((prio pc <=? prio pw) = negb (prio pw <? prio pc)) as Hle
    by apply Z.leb_antisym.
  destruct Hpol as [-> | [-> | ->]].
  - change (schedule (scheduler_of MAX_PRIO PRIO)) with prio_schedule.
    unfold prio_schedule.
    rewrite (bind_Done get_readyqueue _ s (h :: t) s eq_refl).
    rewrite (bind_Done get_current _ s (Some c) s eq_refl).
    cbn [list_empty negb].
    assert (scan (fun p n => (prio n <? prio p)
                             && bool_decide (status p = PROCESS_READY))
              (h :: t) None s = Done (Some w) s) as Hscan'.
    { rewrite (scan_agree _ higher_prio (h :: t) None s); [exact Hscan|].
      intros i p n Hi Hp. destruct (Hready i Hi) as (p' & Hp' & Hrd).
      cbn in Hp, Hp'. assert (p' = p) as -> by congruence.
      unfold higher_prio. rewrite bool_decide_eq_true_2 by done.
      apply andb_true_r. }
    rewrite (bind_Done _ _ _ _ _ Hscan').
    unfold dequeued, requeued, s in *. munfold. mstep.
    rewrite Hne. mstep. rewrite bool_decide_eq_false_2 by done. mstep.
    destruct (prio pw <? prio pc); mstep; [reflexivity|].
    rewrite Hne. mstep. reflexivity.
  - change (schedule (scheduler_of MAX_PRIO PCP)) with pcp_schedule.
    unfold pcp_schedule.
    rewrite (bind_Done get_readyqueue _ s (h :: t) s eq_refl).
    rewrite (bind_Done get_current _ s (Some c) s eq_refl).
    cbn [list_empty negb]. rewrite (bind_Done _ _ _ _ _ Hscan).
    unfold dequeued, requeued, s in *. munfold. mstep.
    rewrite Hlt. mstep. rewrite Hle.
    destruct (prio pw <? prio pc); mstep; [reflexivity|].
    rewrite bool_decide_eq_false_2 by done. mstep. reflexivity.
  - change (schedule (scheduler_of MAX_PRIO PIP)) with pip_schedule.
    unfold pip_schedule.
    rewrite (bind_Done get_readyqueue _ s (h :: t) s eq_refl).
    rewrite (bind_Done get_current _ s (Some c) s eq_refl).
    cbn [list_empty negb]. rewrite (bind_Done _ _ _ _ _ Hscan).
    unfold dequeued, requeued, s in *. munfold. mstep.
    rewrite Hlt. mstep. rewrite Hle.
    destruct (prio pw <? prio pc); mstep;
      rewrite bool_decide_eq_false_2 by done; mstep; reflexivity.
Qed.

Lemma priority_preemption_witness :
  exists w pw,
    first_max (procs three_ready) prio [2%nat; 3%nat; 4%nat] w /\
    procs three_ready !! w = Some pw /\
    prio_schedule three_ready
    = if prio pw <? 4 then Done (Some 1%nat) three_ready
      else Done (Some w) (dequeued w (requeued 1 three_ready)).
Proof.
  apply (priority_preemption 64 PRIO three_ready 1 (mk_process PROCESS_RUNNING 1 4 4 4)).
  - now left.
  - reflexivity.
  - reflexivity.
  - discriminate.
  - cbn. lia.
  - discriminate.
  - intros i Hi. in_list Hi; vm_compute; eauto.
Defined.

(** Under FCFS, SJF, Priority, Priority + aging and PIP a current process
    that is BLOCKED is neither returned nor queued while something is
    ready: a process of the ready queue is taken out and returned, and
    nothing else changes. *)
Theorem blocked_current_stays MAX_PRIO pol s c pc :
  pol ∈ [FCFS; SJF; PRIO; PA; PIP] ->
  current s = Some c -> procs s !! c = Some pc -> status pc = PROCESS_BLOCKED ->
  readyqueue s <> [] -> live (procs s) (readyqueue s) ->
  exists w, w ∈ readyqueue s /\
            schedule (scheduler_of MAX_PRIO pol) s = Done (Some w) (dequeued w s).
Proof.
  intros Hpol Hc Hpc Hst Hrq Hl. destruct s as [m cur rq rs]. cbn in *. subst.
  destruct rq as [|h t]; [congruence|].
  assert (pol = FCFS \/ pol = SJF \/ pol = PRIO \/ pol = PA \/ pol = PIP) as Hcases.
  { repeat (apply elem_of_cons in Hpol as [Hpol|Hpol]; [tauto|]). inversion Hpol. }
  destruct Hcases as [-> | [-> | [-> | [-> | ->]]]]; cbn [schedule scheduler_of
    fcfs_scheduler sjf_scheduler prio_scheduler pa_scheduler pip_scheduler];
    unfold fcfs_schedule, fcfs_pick_next, sjf_schedule, sjf_pick_next, prio_schedule,
      pa_schedule, pa_pick_next, pip_schedule, list_first_entry, dequeued;
    munfold; mstep; rewrite ?bool_decide_eq_true_2 by done; mstep.
  - destruct (Hl h) as [ph Hh]; [now left|]. exists h. split; [now left|].
    mstep. reflexivity.
  - scan_any; [discriminate | exact Hl |].
    destruct (Hl w Hin) as [pw Hpw]. cbn in Hpw.
    exists w. split; [exact Hin|]. mstep. reflexivity.
  - scan_any; [discriminate | exact Hl |].
    destruct (Hl w Hin) as [pw Hpw]. cbn in Hpw.
    exists w. split; [exact Hin|]. mstep.
    destruct (age pc =? lifespan pc); mstep; [reflexivity|].
    rewrite bool_decide_eq_true_2 by done. mstep. reflexivity.
  - scan_any; [discriminate | exact Hl |].
    destruct (Hl w Hin) as [pw Hpw]. cbn in Hpw.
    exists w. split; [exact Hin|]. mstep. reflexivity.
  - scan_any; [discriminate | exact Hl |].
    destruct (Hl w Hin) as [pw Hpw]. cbn in Hpw.
    exists w. split; [exact Hin|]. mstep.
    destruct (age pc <? lifespan pc); mstep; [|reflexivity].
    destruct (prio pc <=? prio pw); mstep;
      rewrite bool_decide_eq_true_2 by done; mstep; reflexivity.
Qed.

Lemma blocked_current_stays_witness :
  exists w, w ∈ [2%nat; 3%nat; 4%nat] /\
            pip_schedule three_ready_blocked
            = Done (Some w) (dequeued w three_ready_blocked).
Proof.
  apply (blocked_current_stays 64 PIP three_ready_blocked 1
           (mk_process PROCESS_BLOCKED 1 4 4 4)).
  - do 4 right. now left.
  - reflexivity.
  - reflexivity.
  - reflexivity.
  - discriminate.
  - intros i Hi. in_list Hi; vm_compute; eauto.
Defined.

(** [pcp_schedule] does not look at the status of a current process that
    outranks the ready queue: a BLOCKED current process that has ticks
    left and a priority above that of every ready process is returned to
    run on; below or on a tie the first ready process of the highest
    priority is taken out and returned, and the blocked process is not
    queued. *)
Theorem pcp_schedule_runs_blocked_current s c pc :
  current s = Some c -> procs s !! c = Some pc ->
  status pc = PROCESS_BLOCKED -> age pc < lifespan pc ->
  readyqueue s <> [] -> live (procs s) (readyqueue s) ->
  exists w pw,
    first_max (procs s) prio (readyqueue s) w /\ procs s !! w = Some pw /\
    pcp_schedule s
    = if prio pw <? prio pc then Done (Some c) s
      else Done (Some w) (dequeued w s).
Proof.
  intros Hc Hpc Hst Hage Hrq Hl. destruct s as [m cur rq rs]. cbn in *. subst.
  destruct rq as [|h t]; [congruence|].
  apply Z.ltb_lt in Hage.
  unfold pcp_schedule, dequeued. munfold. mstep.
  scan_max; [discriminate | exact Hl |].
  cbn in Hmax. destruct (Hl w (first_max_elem _ _ _ _ Hmax)) as [pw Hpw].
  exists w, pw. split; [exact Hmax|]. split; [exact Hpw|].
  mstep. rewrite Hage. mstep. rewrite (Z.leb_antisym (prio pw) (prio pc)).
  destruct (prio pw <? prio pc); mstep; [reflexivity|].
  rewrite bool_decide_eq_true_2 by done. mstep. reflexivity.
Qed.

Lemma pcp_schedule_runs_blocked_current_witness :
  exists w pw,
    first_max (procs blocked_current) prio [2%nat] w /\
    procs blocked_current !! w = Some pw /\
    pcp_schedule blocked_current
    = if prio pw <? 1 then Done (Some 1%nat) blocked_current
      else Done (Some w) (dequeued w blocked_current).
Proof.
  apply (pcp_schedule_runs_blocked_current blocked_current 1
           (mk_process PROCESS_BLOCKED 0 2 1 1)).
  - reflexivity.
  - reflexivity.
  - reflexivity.
  - cbn. lia.
  - discriminate.
  - intros i Hi. in_list Hi; vm_compute; eauto.
Defined.

(** With an empty ready queue and a current process, FCFS, SJF and
    Priority + aging return the current process when it is not blocked
    and has ticks left, and none otherwise; STCF returns it when it has
    ticks left, blocked or not.  Nothing changes: Priority + aging leaves
    the priority of the current process as it is. *)
Theorem empty_readyqueue_with_current MAX_PRIO pol s c pc :
  pol ∈ [FCFS; SJF; STCF; PA] -> readyqueue s = [] ->
  current s = Some c -> procs s !! c = Some pc ->
  schedule (scheduler_of MAX_PRIO pol) s
  = Done (if (age pc <? lifespan pc)
             && match pol with
                | STCF => true
                | _ => negb (bool_decide (status pc = PROCESS_BLOCKED))
                end
          then Some c else None) s.
Proof.
  intros Hpol Hrq Hc Hpc. destruct s as [m cur rq rs]. cbn in *. subst.
  assert (pol = FCFS \/ pol = SJF \/ pol = STCF \/ pol = PA) as Hcases.
  { repeat (apply elem_of_cons in Hpol as [Hpol|Hpol]; [tauto|]). inversion Hpol. }
  destruct Hcases as [-> | [-> | [-> | ->]]]; cbn [schedule scheduler_of
    fcfs_scheduler sjf_scheduler stcf_scheduler pa_scheduler];
    unfold fcfs_schedule, fcfs_pick_next, sjf_schedule, sjf_pick_next, stcf_schedule,
      pa_schedule, pa_pick_next;
    munfold; mstep;
    destruct (bool_decide (status pc = PROCESS_BLOCKED)); mstep;
    destruct (age pc <? lifespan pc); reflexivity.
Qed.

Lemma empty_readyqueue_with_current_witness :
  schedule (scheduler_of 64 PA) pa_alone = Done (Some 1%nat) pa_alone.
Proof.
  exact (empty_readyqueue_with_current 64 PA pa_alone 1
           (mk_process PROCESS_RUNNING 1 4 5 3)
           ltac:(do 3 right; now left) eq_refl eq_refl eq_refl).
Defined.

(** ** Each process in at most one queue *)

Lemma count_unlink i q j :
  count_occ Nat.eq_dec (unlink i q) j
  = if decide (j = i) then 0%nat else count_occ Nat.eq_dec q j.
Proof.
  unfold unlink. induction q as [|x q IH]; [now destruct (decide (j = i))|].
  rewrite filter_cons. destruct (decide (x <> i)) as [Hx|Hx]; cbn [count_occ].
  - rewrite IH. destruct (Nat.eq_dec x j) as [->|Hxj]; [|reflexivity].
    destruct (decide (j = i)); [contradiction | reflexivity].
  - rewrite IH. destruct (Nat.eq_dec x j) as [->|Hxj].
    + destruct (decide (j = i)); [reflexivity|]. exfalso. apply Hx. assumption.
    + reflexivity.
Qed.

Lemma count_waitqueues_unlink i rs j :
  count_occ Nat.eq_dec (concat (waitqueue <$> (unlink_resource i <$> rs))) j
  = if decide (j = i) then 0%nat
    else count_occ Nat.eq_dec (concat (waitqueue <$> rs)) j.
Proof.
  induction rs as [|x rs IH]; cbn.
  - now destruct (decide (j = i)).
  - rewrite !count_occ_app, IH, count_unlink. now destruct (decide (j = i)).
Qed.

Lemma count_waitqueues_insert rs : forall r x y j,
  rs !! r = Some y ->
  (count_occ Nat.eq_dec (concat (waitqueue <$> <[r := x]> rs)) j
   + count_occ Nat.eq_dec (waitqueue y) j
   = count_occ Nat.eq_dec (concat (waitqueue <$> rs)) j
     + count_occ Nat.eq_dec (waitqueue x) j)%nat.
Proof.
  induction rs as [|z rs IH]; intros [|r] x y j H; try discriminate.
  - injection H as ->. cbn. rewrite !count_occ_app. lia.
  - change (rs !! r = Some y) in H. specialize (IH r x y j H).
    change (<[S r := x]> (z :: rs)) with (z :: <[r := x]> rs).
    rewrite !fmap_cons. cbn [concat]. rewrite !count_occ_app. lia.
Qed.

Lemma in_ready_elem s i : i ∈ readyqueue s -> (0 < in_ready s i)%nat.
Proof.
  intros H. apply list_elem_of_In in H. now apply (count_occ_In Nat.eq_dec).
Qed.

Lemma in_wait_elem s r x i :
  resources s !! r = Some x -> i ∈ waitqueue x -> (0 < in_wait s i)%nat.
Proof.
  intros Hr Hi. apply (count_occ_In Nat.eq_dec), list_elem_of_In, elem_of_waitqueues.
  eauto.
Qed.

Lemma membership_counts s :
  membership_ok s <-> forall j, (in_ready s j + in_wait s j <= 1)%nat.
Proof.
  unfold membership_ok, in_ready, in_wait.
  rewrite NoDup_ListNoDup, (NoDup_count_occ Nat.eq_dec).
  split; intros H j; specialize (H j); rewrite count_occ_app in *; lia.
Qed.

Lemma queued_counts s i :
  i ∉ queued s <-> (in_ready s i + in_wait s i = 0)%nat.
Proof.
  unfold queued, in_ready, in_wait. rewrite <- count_occ_app.
  rewrite <- (count_occ_not_In Nat.eq_dec). now rewrite list_elem_of_In.
Qed.

Lemma queued_permutation s s' :
  (forall j, (in_ready s' j + in_wait s' j = in_ready s j + in_wait s j)%nat) ->
  queued s' ≡ₚ queued s.
Proof.
  intros H. apply (Permutation_count_occ Nat.eq_dec). intros j.
  unfold queued. rewrite !count_occ_app. apply H.
Qed.

Lemma queued_permutation_cons s s' c :
  (forall j, (in_ready s' j + in_wait s' j
              = in_ready s j + in_wait s j + if decide (j = c) then 1 else 0)%nat) ->
  queued s' ≡ₚ c :: queued s.
Proof.
  intros H. apply (Permutation_count_occ Nat.eq_dec). intros j.
  unfold queued. cbn [count_occ]. rewrite !count_occ_app.
  specialize (H j). unfold in_ready, in_wait in H.
  destruct (Nat.eq_dec c j) as [Heq|Hne]; destruct (decide (j = c)); try congruence; lia.
Qed.

(** *** The places after each primitive *)

Lemma store_moves p f s a s' :
  store p f s = Done a s' ->
  forall j, in_ready s' j = in_ready s j /\ in_wait s' j = in_wait s j.
Proof.
  unfold store. destruct p as [i|]; [|discriminate].
  destruct (procs s !! i); [|discriminate]. intros H. injection H as _ <-. now split.
Qed.

Lemma set_owner_moves r o s a s' :
  set_owner r o s = Done a s' ->
  forall j, in_ready s' j = in_ready s j /\ in_wait s' j = in_wait s j.
Proof.
  unfold set_owner. intros H.
  apply bind_inv in H as (y & s1 & Hy & H). apply get_resource_inv in Hy as [Hy ->].
  unfold put_resource in H. injection H as _ <-. intros j. split; [reflexivity|].
  unfold in_wait, waitqueues. cbn.
  pose proof (count_waitqueues_insert (resources s) r
                (mk_resource o (waitqueue y)) y j Hy) as Hc.
  cbn in Hc. lia.
Qed.

Lemma list_del_init_moves p s a s' :
  list_del_init p s = Done a s' ->
  exists i, p = Some i /\ procs s' = procs s /\
    forall j, in_ready s' j = (if decide (j = i) then 0%nat else in_ready s j) /\
              in_wait s' j = (if decide (j = i) then 0%nat else in_wait s j).
Proof.
  unfold list_del_init. destruct p as [i|]; [|discriminate].
  destruct (procs s !! i); [|discriminate]. intros H. injection H as _ <-.
  exists i. split; [reflexivity|]. split; [reflexivity|]. intros j. split.
  - apply count_unlink.
  - apply count_waitqueues_unlink.
Qed.

Lemma readyqueue_add_tail_moves p s a s' :
  readyqueue_add_tail p s = Done a s' ->
  exists i, p = Some i /\ procs s' = procs s /\
    forall j, in_ready s' j = (in_ready s j + if decide (j = i) then 1 else 0)%nat /\
              in_wait s' j = in_wait s j.
Proof.
  unfold readyqueue_add_tail. destruct p as [i|]; [|discriminate].
  destruct (procs s !! i); [|discriminate]. intros H. injection H as _ <-.
  exists i. split; [reflexivity|]. split; [reflexivity|]. intros j. split; [|reflexivity].
  unfold in_ready. cbn. rewrite count_occ_app. cbn.
  destruct (Nat.eq_dec i j); destruct (decide (j = i)); congruence.
Qed.

Lemma waitqueue_add_tail_moves p r s a s' :
  waitqueue_add_tail p r s = Done a s' ->
  exists i, p = Some i /\ procs s' = procs s /\
    forall j, in_ready s' j = in_ready s j /\
              in_wait s' j = (in_wait s j + if decide (j = i) then 1 else 0)%nat.
Proof.
  unfold waitqueue_add_tail. destruct p as [i|]; [|discriminate].
  destruct (procs s !! i); [|discriminate].
  destruct (resources s !! r) as [y|] eqn:Hy; [|discriminate].
  intros H. injection H as _ <-.
  exists i. split; [reflexivity|]. split; [reflexivity|]. intros j. split; [reflexivity|].
  unfold in_wait, waitqueues. cbn.
  pose proof (count_waitqueues_insert (resources s) r
                (mk_resource (owner y) (waitqueue y ++ [i])) y j Hy) as Hc.
  cbn in Hc. rewrite count_occ_app in Hc. cbn in Hc.
  destruct (Nat.eq_dec i j); destruct (decide (j = i)); try congruence; lia.
Qed.

Lemma pa_age_moves MAX_PRIO p s a s' :
  pa_age MAX_PRIO p s = Done a s' ->
  forall j, in_ready s' j = in_ready s j /\ in_wait s' j = in_wait s j.
Proof.
  unfold pa_age. intros H.
  apply bind_inv in H as (pp & s1 & H1 & H). apply load_inv in H1 as [_ ->].
  destruct (prio pp <? MAX_PRIO).
  - exact (store_moves _ _ _ _ _ H).
  - apply ret_inv in H as [_ ->]. now split.
Qed.

Lemma pa_scan_moves MAX_PRIO q : forall next s r s',
  pa_scan MAX_PRIO q next s = Done r s' ->
  (forall j, in_ready s' j = in_ready s j /\ in_wait s' j = in_wait s j) /\
  (r = next \/ exists w, r = Some w /\ w ∈ q).
Proof.
  induction q as [|p q IH]; intros next s r s' H.
  - apply ret_inv in H as [-> ->]. split; [now split | now left].
  - destruct next as [n|].
    + rewrite pa_scan_cons_Some in H.
      apply bind_inv in H as (u & s1 & H1 & H).
      pose proof (pa_age_moves _ _ _ _ _ H1) as H1'. clear H1. rename H1' into H1.
      apply bind_inv in H as (pp & s2 & H2 & H). apply load_inv in H2 as [_ ->].
      apply bind_inv in H as (pn & s2 & H2 & H). apply load_inv in H2 as [_ ->].
      apply IH in H as [H [->|(w & -> & Hw)]]; split.
      * intros j. specialize (H j). specialize (H1 j). lia.
      * destruct (higher_prio pp pn); [right; exists p; split; [reflexivity | now left] | now left].
      * intros j. specialize (H j). specialize (H1 j). lia.
      * right. exists w. split; [reflexivity | now right].
    + rewrite pa_scan_cons_None in H.
      apply bind_inv in H as (u & s1 & H1 & H).
      pose proof (pa_age_moves _ _ _ _ _ H1) as H1'. clear H1. rename H1' into H1.
      apply IH in H as [H [->|(w & -> & Hw)]]; split.
      * intros j. specialize (H j). specialize (H1 j). lia.
      * right. exists p. split; [reflexivity | now left].
      * intros j. specialize (H j). specialize (H1 j). lia.
      * right. exists w. split; [reflexivity | now right].
Qed.

(** One step of an operation that returned, with the places it leaves. *)
Ltac qexec_step :=
  first
    [ mexec_step
    | match goal with
      | H : store _ _ _ = Done _ _ |- _ =>
          let H' := fresh in
          pose proof (store_moves _ _ _ _ _ H) as H'; clear H; rename H' into H
      | H : set_owner _ _ _ = Done _ _ |- _ =>
          let H' := fresh in
          pose proof (set_owner_moves _ _ _ _ _ H) as H'; clear H; rename H' into H
      | H : list_del_init _ _ = Done _ _ |- _ =>
          let i := fresh "i" in
          let Hi := fresh "Hi" in
          let Hp := fresh "Hprocs" in
          apply list_del_init_moves in H as (i & Hi & Hp & H)
      | H : readyqueue_add_tail _ _ = Done _ _ |- _ =>
          let i := fresh "i" in
          let Hi := fresh "Hi" in
          let Hp := fresh "Hprocs" in
          apply readyqueue_add_tail_moves in H as (i & Hi & Hp & H)
      | H : waitqueue_add_tail _ _ _ = Done _ _ |- _ =>
          let i := fresh "i" in
          let Hi := fresh "Hi" in
          let Hp := fresh "Hprocs" in
          apply waitqueue_add_tail_moves in H as (i & Hi & Hp & H)
      | H : pa_scan _ _ _ _ = Done _ _ |- _ =>
          let w := fresh "w" in
          let Hw := fresh "Hw" in
          apply pa_scan_moves in H as [H [?|(w & ? & Hw)]]; subst
      end ].

Ltac qexec := repeat qexec_step.

(** The processes the operation met, as counts in the state it met them
    in. *)
Ltac count_facts :=
  repeat match goal with
  | H : head _ = Some _ |- _ => apply head_elem in H
  | H : _ ∈ readyqueue _ |- _ => apply in_ready_elem in H
  | Hr : resources ?s !! ?r = Some ?x, H : ?i ∈ waitqueue ?x |- _ =>
      apply (in_wait_elem s r x i Hr) in H
  | H : _ ∉ queued _ |- _ => apply queued_counts in H
  | H : membership_ok _ |- _ =>
      let H' := fresh in
      pose proof (proj1 (membership_counts _) H) as H'; clear H; rename H' into H
  end.

(** The counts at every process in sight, and the arithmetic. *)
Ltac count_up :=
  simplify_eq;
  count_facts;
  repeat match goal with
  | H : forall j : nat, _ |- _ =>
      repeat match goal with
      | i : nat |- _ =>
          lazymatch type of (H i) with
          | ?T => lazymatch goal with
                  | _ : T |- _ => fail
                  | _ => pose proof (H i)
                  end
          end
      end;
      clear H
  end;
  repeat (case_decide; simplify_eq);
  lia.

(** The queue primitives leave the process table alone. *)
Ltac same_procs :=
  repeat match goal with
  | Hp : procs _ = procs _ |- _ => try rewrite Hp in *; clear Hp
  end.

(** The tests on the status, as facts. *)
Ltac status_tests :=
  tests;
  repeat match goal with
  | H : bool_decide _ = true |- _ => apply bool_decide_eq_true in H
  | H : bool_decide _ = false |- _ => apply bool_decide_eq_false in H
  end.

(** The places after [schedule]: the process returned is in no queue, or
    it is the current process and every process is where it was. *)
Lemma schedule_places MAX_PRIO pol s n s' :
  membership_ok s ->
  (forall c pc, current s = Some c -> procs s !! c = Some pc ->
     status pc = PROCESS_BLOCKED /\ pol ∉ [STCF; RR] \/ c ∉ queued s) ->
  schedule (scheduler_of MAX_PRIO pol) s = Done n s' ->
  membership_ok s' /\
  forall i, n = Some i ->
    i ∉ queued s' \/
    (current s = Some i /\
     forall j, in_ready s' j = in_ready s j /\ in_wait s' j = in_wait s j).
Proof.
  intros Hm Hcur H.
  assert (forall c pc, current s = Some c -> procs s !! c = Some pc ->
            status pc = PROCESS_BLOCKED /\ pol ∉ [STCF; RR]
            \/ (in_ready s c + in_wait s c = 0)%nat) as Hcur'.
  { intros c pc Hc Hpc. rewrite <- queued_counts. eauto. }
  clear Hcur.
  destruct pol;
    cbn [schedule scheduler_of fcfs_scheduler sjf_scheduler stcf_scheduler
           rr_scheduler prio_scheduler pa_scheduler pcp_scheduler pip_scheduler] in H;
    unfold fcfs_schedule, fcfs_pick_next, sjf_schedule, sjf_pick_next, stcf_schedule,
      rr_schedule, prio_schedule, pa_schedule, pa_pick_next, pcp_schedule,
      pip_schedule, absent_or_blocked, list_first_entry in H;
    qexec.
  all: same_procs.
  all: try match goal with
       | Hc : current ?s = Some ?i, Hp : procs ?s !! ?i = Some ?c |- _ =>
           destruct (Hcur' i c Hc Hp) as [[Hb Hpol]|Hnq]
       end.
  all: clear Hcur'.
  all: try (exfalso; apply Hpol; repeat constructor; fail).
  all: status_tests; simplify_eq.
  all: try contradiction.
  all: split; [apply membership_counts; intros j | intros k Hk].
  all: simplify_eq.
  all: first [ count_up
             | right; split; [congruence | intros j; count_up]
             | left; apply queued_counts; count_up ].
Qed.

(** [schedule] keeps every process in at most one queue, and returns a
    process that is in none or the current one, when the current process
    is in no queue; under the policies other than STCF and round-robin
    also when the current process is BLOCKED, wherever it is. *)
Theorem schedule_keeps_membership MAX_PRIO pol s n s' :
  membership_ok s ->
  (forall c pc, current s = Some c -> procs s !! c = Some pc ->
     status pc = PROCESS_BLOCKED /\ pol ∉ [STCF; RR] \/ c ∉ queued s) ->
  schedule (scheduler_of MAX_PRIO pol) s = Done n s' ->
  membership_ok s' /\ forall i, n = Some i -> i ∉ queued s' \/ current s = Some i.
Proof.
  intros Hm Hcur H.
  destruct (schedule_places MAX_PRIO pol s n s' Hm Hcur H) as [Hm' Hn].
  split; [exact Hm'|]. intros i Hi.
  destruct (Hn i Hi) as [Hout|[Hc _]]; [now left | now right].
Qed.

(** A decidable fact on a closed state. *)
Ltac decide_closed :=
  match goal with
  | |- ?P => apply (bool_decide_unpack P); vm_compute; exact I
  end.

(** Round-robin, process 1 running with process 3 ready and process 2
    waiting: process 3 is taken out and process 1 queued. *)
Lemma schedule_keeps_membership_witness :
  membership_ok
    (mk_state (procs release_with_waiter) (Some 1%nat) [1%nat]
       [mk_resource (Some 1%nat) [2%nat]]) /\
  forall i, Some 3%nat = Some i ->
    i ∉ queued (mk_state (procs release_with_waiter) (Some 1%nat) [1%nat]
                  [mk_resource (Some 1%nat) [2%nat]])
    \/ current release_with_waiter = Some i.
Proof.
  refine (schedule_keeps_membership 64 RR release_with_waiter (Some 3%nat)
            (mk_state (procs release_with_waiter) (Some 1%nat) [1%nat]
               [mk_resource (Some 1%nat) [2%nat]]) _ _ _).
  - decide_closed.
  - intros c pc Hc _. injection Hc as <-. right.
    decide_closed.
  - vm_compute. reflexivity.
Defined.

Lemma release_places MAX_PRIO pol r s a s' :
  membership_ok s ->
  release (scheduler_of MAX_PRIO pol) r s = Done a s' ->
  queued s' ≡ₚ queued s /\ membership_ok s'.
Proof.
  intros Hm H.
  destruct pol;
    cbn [release scheduler_of fcfs_scheduler sjf_scheduler stcf_scheduler
           rr_scheduler prio_scheduler pa_scheduler pcp_scheduler pip_scheduler] in H;
    unfold fcfs_release, prio_release, pa_release, pcp_release, pip_release, wake,
      list_first_entry in H;
    qexec.
  all: same_procs.
  all: split; [apply queued_permutation | apply membership_counts]; intros j.
  all: count_up.
Qed.

(** [release] leaves the queues with the processes they had: at most one
    process moves, from a queue to the tail of the ready queue, and every
    process is still in at most one queue. *)
Theorem release_keeps_queued MAX_PRIO pol r s a s' :
  membership_ok s ->
  release (scheduler_of MAX_PRIO pol) r s = Done a s' ->
  queued s' ≡ₚ queued s /\ membership_ok s'.
Proof. apply release_places. Qed.

Lemma release_keeps_queued_witness :
  queued (mk_state
            (table [(1%nat, mk_process PROCESS_RUNNING 2 6 3 3);
                    (2%nat, mk_process PROCESS_READY 1 4 5 5);
                    (3%nat, mk_process PROCESS_READY 0 3 1 1)])
            (Some 1%nat) [3%nat; 2%nat] [mk_resource None []])
  ≡ₚ queued release_with_waiter /\
  membership_ok
    (mk_state
       (table [(1%nat, mk_process PROCESS_RUNNING 2 6 3 3);
               (2%nat, mk_process PROCESS_READY 1 4 5 5);
               (3%nat, mk_process PROCESS_READY 0 3 1 1)])
       (Some 1%nat) [3%nat; 2%nat] [mk_resource None []]).
Proof.
  refine (release_keeps_queued 64 PRIO 0 release_with_waiter tt _ _ _).
  - decide_closed.
  - vm_compute. reflexivity.
Defined.

Lemma acquire_places MAX_PRIO pol r s c b s' :
  (pol = PA -> b = false) ->
  membership_ok s -> current s = Some c -> c ∉ queued s ->
  acquire (scheduler_of MAX_PRIO pol) r s = Done b s' ->
  queued s' ≡ₚ (if b then queued s else c :: queued s) /\ membership_ok s'.
Proof.
  intros Hpa Hm Hc Hnq H.
  destruct pol;
    cbn [acquire scheduler_of fcfs_scheduler sjf_scheduler stcf_scheduler
           rr_scheduler prio_scheduler pa_scheduler pcp_scheduler pip_scheduler] in H;
    unfold fcfs_acquire, prio_acquire, pa_acquire, pcp_acquire, pip_acquire in H;
    qexec.
  all: same_procs.
  all: try (specialize (Hpa eq_refl); discriminate Hpa).
  all: clear Hpa.
  all: simplify_eq.
  all: split;
    [ first [ apply queued_permutation | apply queued_permutation_cons ]
    | apply membership_counts ]; intros j.
  all: count_up.
Qed.

(** [acquire] by a current process that is in no queue keeps every
    process in at most one queue: granted, the queues are as they were;
    refused, the current process is in one more place.  Priority + aging
    is covered where it refuses. *)
Theorem acquire_keeps_membership MAX_PRIO pol r s c b s' :
  (pol = PA -> b = false) ->
  membership_ok s -> current s = Some c -> c ∉ queued s ->
  acquire (scheduler_of MAX_PRIO pol) r s = Done b s' ->
  queued s' ≡ₚ (if b then queued s else c :: queued s) /\ membership_ok s'.
Proof. apply acquire_places. Qed.

Lemma acquire_keeps_membership_witness :
  queued (mk_state
            (table [(1%nat, mk_process PROCESS_BLOCKED 1 4 2 2);
                    (2%nat, mk_process PROCESS_READY 0 3 5 5);
                    (3%nat, mk_process PROCESS_READY 1 2 5 5)])
            (Some 1%nat) [2%nat; 3%nat] [mk_resource (Some 3%nat) [1%nat]])
  ≡ₚ 1%nat :: queued held_resource /\
  membership_ok
    (mk_state
       (table [(1%nat, mk_process PROCESS_BLOCKED 1 4 2 2);
               (2%nat, mk_process PROCESS_READY 0 3 5 5);
               (3%nat, mk_process PROCESS_READY 1 2 5 5)])
       (Some 1%nat) [2%nat; 3%nat] [mk_resource (Some 3%nat) [1%nat]]).
Proof.
  refine (acquire_keeps_membership 64 FCFS 0 held_resource 1 false _ _ _ _ _ _).
  - discriminate.
  - decide_closed.
  - reflexivity.
  - decide_closed.
  - vm_compute. reflexivity.
Defined.

(** ** The invariant on ages, across acquire and release *)

(** [acquire] by a current process that has ticks left keeps the
    invariant, the current process, and every age and lifespan. *)
Theorem acquire_keeps_sound MAX_PRIO pol r s c b s' :
  sound s -> current s = Some c -> unfinished (procs s) c ->
  acquire (scheduler_of MAX_PRIO pol) r s = Done b s' ->
  sound s' /\ current s' = Some c /\
  forall i, life (procs s') i = life (procs s) i.
Proof.
  intros Hs Hc Hu H.
  pose proof (acquire_effect MAX_PRIO pol r s c b s' Hs Hc Hu H) as Heff.
  split; [exact (sound_effect _ s s' (fun o Ho => Ho) Hs Heff)|].
  split; [rewrite (eff_current _ _ _ Heff); exact Hc | apply (eff_life _ _ _ Heff)].
Qed.

(** Round-robin: process 1 asks for the resource process 2 holds. *)
Lemma acquire_keeps_sound_witness :
  sound blocked_current /\ current blocked_current = Some 1%nat /\
  forall i, life (procs blocked_current) i = life (procs about_to_ask) i.
Proof.
  refine (acquire_keeps_sound 64 RR 0 about_to_ask 1 false blocked_current _ _ _ _).
  - apply soundb_sound. vm_compute. reflexivity.
  - reflexivity.
  - exists (mk_process PROCESS_READY 0 2 1 1). split; [reflexivity | cbn; lia].
  - vm_compute. reflexivity.
Defined.

(** [release] keeps the invariant, the current process, and every age and
    lifespan. *)
Theorem release_keeps_sound MAX_PRIO pol r s a s' :
  sound s -> release (scheduler_of MAX_PRIO pol) r s = Done a s' ->
  sound s' /\ current s' = current s /\
  forall i, life (procs s') i = life (procs s) i.
Proof.
  intros Hs H.
  pose proof (release_effect MAX_PRIO pol r s a s' H) as Heff.
  split; [exact (sound_effect _ s s' (no_new_owner s) Hs Heff)|].
  split; [apply (eff_current _ _ _ Heff) | apply (eff_life _ _ _ Heff)].
Qed.

(** Round-robin: process 2 gives back the resource it holds. *)
Lemma release_keeps_sound_witness :
  sound (with_resources [mk_resource None []] holding) /\
  current (with_resources [mk_resource None []] holding) = current holding /\
  forall i, life (procs (with_resources [mk_resource None []] holding)) i
            = life (procs holding) i.
Proof.
  refine (release_keeps_sound 64 RR 0 holding tt
            (with_resources [mk_resource None []] holding) _ _).
  - apply soundb_sound. vm_compute. reflexivity.
  - vm_compute. reflexivity.
Defined.

(** ** A finished process stays out of the queues *)

(** *** The process table across the operations *)







(** *** The driver keeps the queues tidy *)














